(** * winterwavybot: the state store, the waitlists, the live snapshot and
      the TikTok listener loop

    A shallow embedding of [utils.py], of the reconnect loop of
    [tiktok_listener.py] and of the queue lookup of [main.py], followed by
    the properties of the store that the specification relies on.

    Conventions of the embedding.
    - A Python [str] is a [string]; a character is a code point below 256,
      compared by its code as Python does.
    - A Python [dict] is an association list in insertion order: assigning
      to a key that is present replaces its value in place, assigning to a
      new key appends it.
    - The data directory is a finite map from paths to files.  A file holds
      either the JSON document it parses to, or text that [json.load]
      rejects.  Lists inside documents are lists of strings, the only lists
      this program writes, so that [str(u)] is [u].
    - [ensure_data_dir] has no effect on the files and is left out.
    - Every call into the environment of the listener (the events a session
      delivers, how [client.start()] ends, how the backoff wait ends, what
      [_now_iso()] returns) is read from a script. *)

From Stdlib Require Import ZArith NArith Ascii.
From stdpp Require Import base decidable option list sorting strings gmap.

Local Open Scope Z_scope.
Set Warnings "-register-all,-clear-no-such-hyp".

(** ** Strings: [str.strip] and [str.lower] *)

(** [str.isspace] on code points below 256. *)
Definition isspace (c : ascii) : bool :=
  let n := N_of_ascii c in
  ((9 <=? n) && (n <=? 13) || (28 <=? n) && (n <=? 32)
   || (n =? 133) || (n =? 160))%N.

Fixpoint lstrip (s : string) : string :=
  match s with
  | EmptyString => EmptyString
  | String c s' => if isspace c then lstrip s' else s
  end.

Fixpoint rstrip (s : string) : string :=
  match s with
  | EmptyString => EmptyString
  | String c s' =>
      match rstrip s' with
      | EmptyString => if isspace c then EmptyString else String c EmptyString
      | r => String c r
      end
  end.

(** [s.strip()] *)
Definition strip (s : string) : string := rstrip (lstrip s).

Definition lower_char (c : ascii) : ascii :=
  let n := N_of_ascii c in
  if ((65 <=? n) && (n <=? 90)
      || (192 <=? n) && (n <=? 222) && negb (n =? 215))%N
  then ascii_of_N (n + 32) else c.

(** [s.lower()] *)
Fixpoint lower (s : string) : string :=
  match s with
  | EmptyString => EmptyString
  | String c s' => String (lower_char c) (lower s')
  end.

(** ** Python dictionaries *)

Abbreviation dict V := (list (string * V)).

(** [d.get(k)] *)
Fixpoint dict_get {V} (k : string) (d : dict V) : option V :=
  match d with
  | [] => None
  | (k', v) :: d' => if decide (k' = k) then Some v else dict_get k d'
  end.

(** [d[k] = v] *)
Fixpoint dict_set {V} (k : string) (v : V) (d : dict V) : dict V :=
  match d with
  | [] => [(k, v)]
  | (k', v') :: d' =>
      if decide (k' = k) then (k', v) :: d' else (k', v') :: dict_set k v d'
  end.

(** [d.update(p)] *)
Definition dict_update {V} (d p : dict V) : dict V :=
  foldl (fun acc kv => dict_set kv.1 kv.2 acc) d p.

(** ** JSON documents and the data directory *)

Inductive json :=
  | JNull
  | JBool (b : bool)
  | JInt (n : Z)
  | JStr (s : string)
  | JArr (l : list string)
  | JObj (o : list (string * json)).

Inductive file :=
  | Text (doc : json)     (* text that [json.load] parses to [doc] *)
  | Unparsable.           (* text on which [json.load] raises JSONDecodeError *)

Abbreviation disk := (gmap string file).

Definition DATA_DIR : string := "data".
Definition QUEUES_PATH : string := DATA_DIR +:+ "/queues.json".
Definition LIVE_STATS_PATH : string := DATA_DIR +:+ "/live_stats.json".

(** The file system calls [write_json] makes, in order. *)
Inductive fsop :=
  | OpenW (p : string)                (* open(p, "w"): create or truncate *)
  | Dump (p : string) (data : json)   (* json.dump(data, f) and close *)
  | Replace (src dst : string).       (* os.replace(src, dst) *)

Definition fs_step (fs : disk) (op : fsop) : disk :=
  match op with
  | OpenW p => <[p := Unparsable]> fs
  | Dump p data => <[p := Text data]> fs
  | Replace src dst =>
      match fs !! src with
      | Some f => <[dst := f]> (delete src fs)
      | None => fs
      end
  end.

Definition fs_run (ops : list fsop) (fs : disk) : disk := foldl fs_step fs ops.

(** [f"{path}.tmp"] *)
Definition tmp_path (path : string) : string := path +:+ ".tmp".

Definition write_json_ops (path : string) (data : json) : list fsop :=
  [OpenW (tmp_path path); Dump (tmp_path path) data;
   Replace (tmp_path path) path].

Definition write_json (path : string) (data : json) (fs : disk) : disk :=
  fs_run (write_json_ops path data) fs.

(** A [write_json] that stops after its first [k] file system calls. *)
Definition write_json_upto (k : nat) (path : string) (data : json)
    (fs : disk) : disk :=
  fs_run (take k (write_json_ops path data)) fs.

Definition read_json (path : string) (default : json) (fs : disk)
    : json * disk :=
  match fs !! path with
  | Some (Text doc) => (doc, fs)
  | None => (default, write_json path default fs)     (* FileNotFoundError *)
  | Some Unparsable => (default, fs)                  (* JSONDecodeError *)
  end.

(** [os.path.dirname] on POSIX paths. *)
Fixpoint has_slash (s : string) : bool :=
  match s with
  | EmptyString => false
  | String c s' => if decide (c = "/"%char) then true else has_slash s'
  end.

Fixpoint all_slashes (s : string) : bool :=
  match s with
  | EmptyString => true
  | String c s' => if decide (c = "/"%char) then all_slashes s' else false
  end.

(** [p[:p.rfind("/") + 1]] *)
Fixpoint upto_last_slash (s : string) : string :=
  match s with
  | EmptyString => EmptyString
  | String c s' => if has_slash s then String c (upto_last_slash s') else EmptyString
  end.

(** [head.rstrip("/")] *)
Fixpoint rstrip_slashes (s : string) : string :=
  match s with
  | EmptyString => EmptyString
  | String c s' =>
      match rstrip_slashes s' with
      | EmptyString =>
          if decide (c = "/"%char) then EmptyString else String c EmptyString
      | r => String c r
      end
  end.

Definition dirname (p : string) : string :=
  let head := upto_last_slash p in
  if all_slashes head then head else rstrip_slashes head.

Definition is_dict (j : json) : bool :=
  match j with JObj _ => true | _ => false end.

Definition path_exists (p : string) (fs : disk) : bool :=
  bool_decide (is_Some (fs !! p)).

Definition default_stats (env_username : string) : list (string * json) :=
  [("connected", JBool false); ("viewers", JInt 0); ("likes", JInt 0);
   ("last_comment", JNull); ("last_gift", JNull); ("updated_at", JNull);
   ("tiktok_username", JStr env_username)].

(** [init_seed_files]; [env_username] is [os.getenv("TIKTOK_USERNAME", "")]. *)
Definition seed_file (path : string) (default : json) (fs : disk) : disk :=
  if path_exists path fs then
    let '(data, fs1) := read_json path default fs in
    if is_dict data then fs1 else write_json path default fs1
  else write_json path default fs.

Definition init_seed_files (env_username : string) (fs : disk) : disk :=
  seed_file LIVE_STATS_PATH (JObj (default_stats env_username))
    (seed_file QUEUES_PATH (JObj []) fs).

(** ** Waitlists *)

Abbreviation table := (list (string * list string)).

(** [sorted(l)] on strings *)
Definition sorted (l : list string) : list string := merge_sort String.le l.

(** [sorted(list({str(u).strip(): None for u in users}.keys()))] *)
Definition unique_sorted (users : list string) : list string :=
  sorted ((foldl (fun d u => dict_set (strip u) () d) [] users).*1).

Definition users_of_json (users : json) : list string :=
  match users with
  | JArr l => unique_sorted l      (* isinstance(users, list) *)
  | _ => []
  end.

Definition get_queues (fs : disk) : table * disk :=
  let '(data, fs1) := read_json QUEUES_PATH (JObj []) fs in
  match data with
  | JObj items =>
      (foldl (fun normalized gu => dict_set gu.1 (users_of_json gu.2) normalized)
         [] items, fs1)
  | _ => ([], fs1)
  end.

Definition json_of_table (t : table) : json :=
  JObj ((fun gu => (gu.1, JArr gu.2)) <$> t).

Definition save_queues (queues : table) (fs : disk) : disk :=
  let normalized :=
    foldl (fun normalized gu =>
             dict_set (strip gu.1) (unique_sorted gu.2) normalized) [] queues in
  write_json QUEUES_PATH (json_of_table normalized) fs.

Definition add_to_queue (game username : string) (fs : disk) : disk :=
  let '(queues, fs1) := get_queues fs in
  let game_key := lower (strip game) in
  let username_key := strip username in
  let users : gset string :=
    list_to_set (default [] (dict_get game_key queues)) in
  let users := users ∪ {[username_key]} in
  save_queues (dict_set game_key (sorted (elements users)) queues) fs1.

Definition remove_from_queue (game username : string) (fs : disk)
    : bool * disk :=
  let '(queues, fs1) := get_queues fs in
  let game_key := lower (strip game) in
  let username_key := strip username in
  match dict_get game_key queues with
  | None => (false, fs1)
  | Some users =>
      if bool_decide (username_key ∈ users) then
        (true,
         save_queues
           (dict_set game_key (filter (fun u => u ≠ username_key) users) queues)
           fs1)
      else (false, fs1)
  end.

Definition clear_queue (game : string) (fs : disk) : disk :=
  let '(queues, fs1) := get_queues fs in
  save_queues (dict_set (lower (strip game)) [] queues) fs1.

(** The lookup of the [!queue] command ([main.py], [cmd_queue]):
    [get_queues().get(game.strip().lower(), [])]. *)
Definition cmd_queue_users (game : string) (fs : disk) : list string * disk :=
  let '(queues, fs1) := get_queues fs in
  (default [] (dict_get (lower (strip game)) queues), fs1).

(** A run of waitlist operations, as the commands and the dashboard issue
    them. *)
Inductive queue_op :=
  | Add (game username : string)
  | Remove (game username : string)
  | Clear (game : string)
  | List.

Definition queue_step (fs : disk) (op : queue_op) : disk :=
  match op with
  | Add g u => add_to_queue g u fs
  | Remove g u => (remove_from_queue g u fs).2
  | Clear g => clear_queue g fs
  | List => (get_queues fs).2
  end.

Definition queue_run (ops : list queue_op) (fs : disk) : disk :=
  foldl queue_step fs ops.

(** ** Live stats *)

Definition get_live_stats (fs : disk) : list (string * json) * disk :=
  let '(stats, fs1) := read_json LIVE_STATS_PATH (JObj []) fs in
  match stats with
  | JObj d => (d, fs1)
  | _ => ([], fs1)
  end.

Definition update_live_stats (partial : list (string * json)) (fs : disk)
    : list (string * json) * disk :=
  let '(stats, fs1) := get_live_stats fs in
  let stats := dict_update stats partial in
  (stats, write_json LIVE_STATS_PATH (JObj stats) fs1).

(** ** The listener ([tiktok_listener.py]) *)

(** The attributes the handlers read from an event.  An attribute that is
    missing or [None] is [None] here; numeric attributes are integers. *)
Record user := { uniqueId : option string; nickname : option string }.

Inductive event :=
  | ConnectEvent
  | DisconnectEvent
  | ViewerCountUpdateEvent (viewerCount viewers : option Z)
  | LikeEvent (totalLikes likeCount count : option Z)
  | CommentEvent (who : option user) (comment : option string)
  | GiftEvent (gift_name : option (option string))
      (repeatCount count : option Z) (who : option user).

(** [a or b] on optional strings: [None] and the empty string are falsy. *)
Definition str_or (a b : option string) : option string :=
  match a with
  | Some s => if decide (s = "") then b else a
  | None => b
  end.

Definition json_of_str (s : option string) : json :=
  match s with Some s => JStr s | None => JNull end.

Definition json_of_int (n : option Z) : json :=
  match n with Some n => JInt n | None => JNull end.

(** [getattr(event.user, "uniqueId", None) or getattr(event.user, "nickname", None)] *)
Definition user_name (who : option user) : option string :=
  match who with
  | Some u => str_or (uniqueId u) (nickname u)
  | None => None
  end.

(** The partial update a handler merges for an event ([None]: no merge),
    and the like counter it leaves.  [now] is what [_now_iso()] returns. *)
Definition on_event (username now : string) (like_counter : option Z)
    (ev : event) : option (list (string * json)) * option Z :=
  match ev with
  | ConnectEvent =>
      (Some [("connected", JBool true); ("updated_at", JStr now);
             ("tiktok_username", JStr username)], like_counter)
  | DisconnectEvent =>
      (Some [("connected", JBool false); ("updated_at", JStr now)],
       like_counter)
  | ViewerCountUpdateEvent viewerCount viewers =>
      let viewers :=
        match viewerCount with Some v => Some v | None => viewers end in
      match viewers with
      | Some v => (Some [("viewers", JInt v); ("updated_at", JStr now)],
                   like_counter)
      | None => (None, like_counter)
      end
  | LikeEvent totalLikes likeCount count =>
      let like_counter :=
        match totalLikes with
        | Some total => total
        | None =>
            let increment :=
              match likeCount with
              | Some i => i
              | None =>
                  match count with
                  | Some c => if decide (c = 0) then 1 else c
                  | None => 1
                  end
              end in
            default 0 like_counter + increment
        end in
      (Some [("likes", JInt like_counter); ("updated_at", JStr now)],
       Some like_counter)
  | CommentEvent who comment =>
      (Some [("last_comment",
              JObj [("user", json_of_str (user_name who));
                    ("comment", json_of_str comment)]);
             ("updated_at", JStr now)], like_counter)
  | GiftEvent gift_name repeatCount count who =>
      let gift_name := match gift_name with Some n => n | None => None end in
      let repeat_count :=
        match repeatCount with Some r => Some r | None => count end in
      (Some [("last_gift",
              JObj [("user", json_of_str (user_name who));
                    ("gift", json_of_str gift_name);
                    ("repeat_count", json_of_int repeat_count)]);
             ("updated_at", JStr now)], like_counter)
  end.

(** What the loop does that an observer can see, in order. *)
Inductive action :=
  | Start                                  (* client.start() is awaited *)
  | Merge (partial : list (string * json)) (* update_live_stats(partial) *)
  | Sleep (seconds : Z).                   (* asyncio.sleep(seconds) is awaited *)

(** The events of one session, each with the clock reading of its handler. *)
Fixpoint deliver (username : string) (like_counter : option Z)
    (evs : list (event * string)) (fs : disk) : list action * disk :=
  match evs with
  | [] => ([], fs)
  | (ev, now) :: evs' =>
      let '(partial, like_counter) := on_event username now like_counter ev in
      match partial with
      | Some p =>
          let '(tr, fs') :=
            deliver username like_counter evs' (update_live_stats p fs).2 in
          (Merge p :: tr, fs')
      | None => deliver username like_counter evs' fs
      end
  end.

(** How [asyncio.wait_for(asyncio.sleep(5), timeout=5)] ends. *)
Inductive backoff :=
  | Slept          (* the sleep completes *)
  | Cancelled      (* asyncio.CancelledError is raised in it *)
  | TimedOut.      (* the timeout of wait_for fires: TimeoutError *)

(** How [await client.start()] ends. *)
Inductive ending :=
  | Returns                                  (* it returns *)
  | Raises (now : string) (wait : backoff)   (* an Exception; then the backoff *)
  | Interrupted.      (* asyncio.CancelledError, not an Exception (3.8+) *)

(** One turn of the [while True] loop as the environment plays it:
    whether [stop_event] is set at the top, the events [client.start()]
    delivers, how it ends, and the clock read in the [finally] block. *)
Record round := {
  stop_is_set : bool;
  delivered : list (event * string);
  ends : ending;
  now_finally : string;
}.

Inductive exit :=
  | Return                 (* the coroutine returns *)
  | RaiseCancelled         (* it ends with asyncio.CancelledError *)
  | RaiseTimeout           (* it ends with TimeoutError *)
  | Running.               (* the script is used up, the loop goes on *)

Definition disconnected (now : string) : list (string * json) :=
  [("connected", JBool false); ("updated_at", JStr now)].

Fixpoint reconnect_loop (username : string) (script : list round)
    (fs : disk) : list action * disk * exit :=
  match script with
  | [] => ([], fs, Running)
  | r :: script' =>
      if stop_is_set r then ([], fs, Return) else
      let '(handled, fs1) := deliver username None (delivered r) fs in
      let finally_ (fs : disk) : disk :=
        (update_live_stats (disconnected (now_finally r)) fs).2 in
      let merge_finally := Merge (disconnected (now_finally r)) in
      match ends r with
      | Returns =>
          (Start :: handled ++ [merge_finally], finally_ fs1, Return)
      | Interrupted =>
          (Start :: handled ++ [merge_finally], finally_ fs1, RaiseCancelled)
      | Raises now wait =>
          let fs2 := (update_live_stats (disconnected now) fs1).2 in
          let until_wait :=
            Start :: handled ++ [Merge (disconnected now); Sleep 5] in
          match wait with
          | Cancelled => (until_wait ++ [merge_finally], finally_ fs2, Return)
          | TimedOut =>
              (until_wait ++ [merge_finally], finally_ fs2, RaiseTimeout)
          | Slept =>
              let '(tr, fs', e) := reconnect_loop username script' (finally_ fs2) in
              (until_wait ++ merge_finally :: tr, fs', e)
          end
      end
  end.

(** [run_tiktok_listener]; [username] is [os.getenv("TIKTOK_USERNAME", "")],
    [installed] tells whether TikTokLive could be imported, [now0] is the
    clock read on the two early exits. *)
Definition run_tiktok_listener (username : string) (installed : bool)
    (now0 : string) (script : list round) (fs : disk)
    : list action * disk * exit :=
  if decide (username = "") then
    let p := [("connected", JBool false); ("updated_at", JStr now0);
              ("tiktok_username", JStr "")] in
    ([Merge p], (update_live_stats p fs).2, Return)
  else if negb installed then
    let p := [("connected", JBool false); ("updated_at", JStr now0);
              ("tiktok_username", JStr username)] in
    ([Merge p], (update_live_stats p fs).2, Return)
  else reconnect_loop username script fs.

(** The [connected] field of the stored snapshot. *)
Definition connected_of (fs : disk) : option json :=
  dict_get "connected" (get_live_stats fs).1.

Definition is_disconnect_merge (a : action) : bool :=
  match a with
  | Merge p =>
      match dict_get "connected" p with
      | Some (JBool false) => true
      | _ => false
      end
  | _ => false
  end.

(** ** Predicates of the statements *)

Definition stripped (s : string) : Prop := strip s = s.

(** Sorted by code points, no entry twice. *)
Definition canonical (l : list string) : Prop :=
  Sorted String.le l ∧ NoDup l.

(** Every category of a table has a canonical list of entrants. *)
Definition table_ok (t : table) : Prop :=
  Forall (fun gu => canonical gu.2) t.

(** The category keys of a table are trimmed, as [save_queues] writes them. *)
Definition keys_trimmed (t : table) : Prop :=
  Forall (fun gu => stripped gu.1) t.

(** The stored waitlist document, when it is a dictionary, maps every key
    to a canonical list. *)
Definition stored_ok (fs : disk) : Prop :=
  ∀ items, fs !! QUEUES_PATH = Some (Text (JObj items)) →
    Forall (fun gu => ∃ us, gu.2 = JArr us ∧ canonical us) items.

(** What [get_queues] establishes of the table it returns. *)
Definition normal (t : table) : Prop :=
  NoDup t.*1 ∧ Forall (fun gu => canonical gu.2 ∧ Forall stripped gu.2) t.

Definition carries_updated_at (a : action) : Prop :=
  match a with
  | Merge p => ∃ now, dict_get "updated_at" p = Some (JStr now)
  | _ => True
  end.

(** A session that fails before it delivers an event, followed by a backoff
    wait that completes; [now] is the clock read in the [except] block and
    [now'] the one read in the [finally] block. *)
Definition failed (now now' : string) : round :=
  {| stop_is_set := false; delivered := []; ends := Raises now Slept;
     now_finally := now' |}.

(** What the loop does for one such session. *)
Definition failed_trace (now now' : string) : list action :=
  [Start; Merge (disconnected now); Sleep 5; Merge (disconnected now')].

(** A turn at whose top [stop_event] is set. *)
Definition stop_round : round :=
  {| stop_is_set := true; delivered := []; ends := Returns;
     now_finally := "" |}.

Definition is_start (a : action) : bool :=
  match a with Start => true | _ => false end.

Definition is_sleep (a : action) : bool :=
  match a with Sleep _ => true | _ => false end.

(** The events whose handlers name the [connected] field. *)
Definition names_connected (ev : event) : bool :=
  match ev with
  | ConnectEvent | DisconnectEvent => true
  | _ => false
  end.

(** A like event that carries an increment and no total. *)
Definition like_by (increment : Z) : event :=
  LikeEvent None (Some increment) None.

(** ** The chat commands ([main.py]) *)

(** [not s] for an optional argument: [None] and the empty string. *)
Definition missing (s : option string) : bool :=
  match s with
  | Some s => bool_decide (s = "")
  | None => true
  end.

(** [cmd_me]: the reply that is sent and the data directory it leaves. *)
Definition cmd_me (username game : option string) (fs : disk)
    : string * disk :=
  if missing username || missing game then
    ("Usage: !me <username> <game>", fs)
  else
    let username := default "" username in
    let game := default "" game in
    let fs' := add_to_queue game username fs in
    ("Added " +:+ username +:+ " to " +:+ game +:+ " queue.", fs').

(** [cmd_leave] *)
Definition cmd_leave (username game : option string) (fs : disk)
    : string * disk :=
  if missing username || missing game then
    ("Usage: !leave <username> <game>", fs)
  else
    let username := default "" username in
    let game := default "" game in
    let '(ok, fs') := remove_from_queue game username fs in
    if ok then
      ("Removed " +:+ username +:+ " from " +:+ game +:+ " queue.", fs')
    else (username +:+ " not found in " +:+ game +:+ " queue.", fs').

(** The data directories the store produces: it starts without a
    waitlist file, and from then on only [init_seed_files], the waitlist
    operations and the merges of the snapshot write to it. *)
Inductive store_reachable : disk → Prop :=
  | reach_no_file fs :
      fs !! QUEUES_PATH = None → store_reachable fs
  | reach_seed env_username fs :
      store_reachable fs → store_reachable (init_seed_files env_username fs)
  | reach_queue fs op :
      store_reachable fs → store_reachable (queue_step fs op)
  | reach_merge partial fs :
      store_reachable fs → store_reachable (update_live_stats partial fs).2.

(** * Properties *)

(** ** Strings *)

Lemma isspace_lower_char c : isspace (lower_char c) = isspace c.
Proof. by destruct c as [[] [] [] [] [] [] [] []]. Qed.

Lemma lstrip_lower s : lstrip (lower s) = lower (lstrip s).
Proof.
  induction s as [|c s IH]; simpl; [done|].
  rewrite isspace_lower_char. by destruct (isspace c).
Qed.

Lemma rstrip_lower s : rstrip (lower s) = lower (rstrip s).
Proof.
  induction s as [|c s IH]; simpl; [done|].
  rewrite IH, isspace_lower_char.
  destruct (rstrip s); simpl; [by destruct (isspace c)|done].
Qed.

Lemma strip_lower s : strip (lower s) = lower (strip s).
Proof. unfold strip. by rewrite lstrip_lower, rstrip_lower. Qed.

Lemma lstrip_idemp s : lstrip (lstrip s) = lstrip s.
Proof.
  induction s as [|c s IH]; simpl; [done|].
  destruct (isspace c) eqn:Hc; [done|]. simpl. by rewrite Hc.
Qed.

Lemma rstrip_idemp s : rstrip (rstrip s) = rstrip s.
Proof.
  induction s as [|c s IH]; simpl; [done|].
  destruct (rstrip s) as [|d r] eqn:Hr.
  - destruct (isspace c) eqn:Hc; simpl; [done|]. by rewrite Hc.
  - change (rstrip (String c (String d r))) with
      (match rstrip (String d r) with
       | EmptyString =>
           if isspace c then EmptyString else String c EmptyString
       | r' => String c r'
       end).
    by rewrite IH.
Qed.

Lemma lstrip_rstrip s : lstrip (rstrip s) = rstrip (lstrip s).
Proof.
  induction s as [|c s IH]; simpl; [done|].
  destruct (isspace c) eqn:Hc.
  - rewrite <-IH. destruct (rstrip s); simpl; by rewrite ?Hc.
  - simpl. destruct (rstrip s); simpl; by rewrite Hc.
Qed.

Lemma strip_idemp s : strip (strip s) = strip s.
Proof.
  unfold strip.
  by rewrite (lstrip_rstrip (lstrip s)), lstrip_idemp, rstrip_idemp.
Qed.

Lemma stripped_strip s : stripped (strip s).
Proof. apply strip_idemp. Qed.

Lemma stripped_game_key game : stripped (lower (strip game)).
Proof. unfold stripped. by rewrite strip_lower, strip_idemp. Qed.

Example strip_lower_example :
  lower (strip "  Valorant ") = "valorant" ∧ strip " Alice " = "Alice".
Proof. by vm_compute. Qed.

(** ** Dictionaries *)

Section dict.
Context {V : Type}.
Implicit Types (d p : list (string * V)) (k : string) (v : V).

Lemma dict_get_set k k' v d :
  dict_get k' (dict_set k v d) =
    if decide (k = k') then Some v else dict_get k' d.
Proof.
  induction d as [|[k0 v0] d IH]; simpl.
  - by repeat case_decide.
  - repeat (case_decide; simpl; simplify_eq); try done.
Qed.

Lemma dict_get_set_eq k v d : dict_get k (dict_set k v d) = Some v.
Proof. rewrite dict_get_set. by case_decide. Qed.

Lemma dict_get_set_ne k k' v d :
  k ≠ k' → dict_get k' (dict_set k v d) = dict_get k' d.
Proof. intros. rewrite dict_get_set. by case_decide. Qed.

Lemma dict_get_None k d : dict_get k d = None ↔ k ∉ d.*1.
Proof.
  induction d as [|[k0 v0] d IH]; simpl.
  - split; [intros _; apply not_elem_of_nil|done].
  - rewrite not_elem_of_cons. destruct (decide (k0 = k)); naive_solver.
Qed.

Lemma dict_get_Some_elem_of k v d : dict_get k d = Some v → (k, v) ∈ d.
Proof.
  induction d as [|[k0 v0] d IH]; simpl; [done|].
  case_decide; intros; simplify_eq; [left|right; auto].
Qed.

Lemma dict_get_elem_of k v d : NoDup d.*1 → (k, v) ∈ d → dict_get k d = Some v.
Proof.
  induction d as [|[k0 v0] d IH]; simpl; [by intros _ ?%elem_of_nil|].
  intros [Hk0 Hd]%NoDup_cons [?|Hin]%elem_of_cons; simplify_eq.
  - by case_decide.
  - case_decide; [|by auto]. subst. destruct Hk0.
    by apply (list_elem_of_fmap_2 fst) in Hin.
Qed.

Lemma dict_set_keys k v d :
  (dict_set k v d).*1 = if decide (k ∈ d.*1) then d.*1 else d.*1 ++ [k].
Proof.
  induction d as [|[k0 v0] d IH]; csimpl.
  - destruct (decide (k ∈ [])) as [H|]; [by apply elem_of_nil in H|done].
  - destruct (decide (k0 = k)) as [->|Hne]; csimpl.
    + rewrite decide_True; [done|left].
    + rewrite IH. destruct (decide (k ∈ d.*1)).
      * rewrite decide_True; [done|by right].
      * rewrite decide_False; [done|]. rewrite elem_of_cons. naive_solver.
Qed.

Lemma dict_set_NoDup k v d : NoDup d.*1 → NoDup (dict_set k v d).*1.
Proof.
  intros Hd. rewrite dict_set_keys. case_decide; [done|].
  apply NoDup_app. split_and!; [done| |apply NoDup_singleton].
  intros x Hx ->%list_elem_of_singleton. done.
Qed.

Lemma dict_set_fresh k v d : k ∉ d.*1 → dict_set k v d = d ++ [(k, v)].
Proof.
  induction d as [|[k0 v0] d IH]; simpl; [done|].
  rewrite not_elem_of_cons. intros [??]. case_decide; [done|].
  by rewrite IH.
Qed.

Lemma dict_set_elem_of k v d x :
  x ∈ dict_set k v d → x = (k, v) ∨ x ∈ d.
Proof.
  induction d as [|[k0 v0] d IH]; simpl.
  - rewrite list_elem_of_singleton. auto.
  - case_decide; subst; rewrite !elem_of_cons; naive_solver.
Qed.

Lemma dict_set_Forall (P : string * V → Prop) k v d :
  P (k, v) → Forall P d → Forall P (dict_set k v d).
Proof.
  rewrite !Forall_forall. intros ?? x [->|?]%dict_set_elem_of; auto.
Qed.

Lemma dict_set_set k v v' d :
  dict_set k v (dict_set k v' d) = dict_set k v d.
Proof.
  induction d as [|[k0 v0] d IH]; simpl.
  - by rewrite decide_True.
  - case_decide; simpl; subst.
    + by rewrite decide_True.
    + rewrite decide_False by done. by rewrite IH.
Qed.

(** [d.update(p)]: the last item of [p] for a key wins, a key that [p]
    does not name keeps its value. *)
Lemma dict_get_update k d p :
  dict_get k (dict_update d p) =
    match dict_get k (reverse p) with
    | Some v => Some v
    | None => dict_get k d
    end.
Proof.
  unfold dict_update. revert d.
  induction p as [|[k0 v0] p IH] using rev_ind; intros d; [done|].
  rewrite foldl_app, reverse_app. simpl.
  rewrite dict_get_set. case_decide; [done|]. apply IH.
Qed.

(** Inserting items whose keys are new, one after the other, appends
    them. *)
Lemma foldl_dict_set_fresh {X} (kf : X → string) (vf : X → V)
    (l : list X) d :
  NoDup (d.*1 ++ (kf <$> l)) →
  foldl (fun acc x => dict_set (kf x) (vf x) acc) d l
  = d ++ ((fun x => (kf x, vf x)) <$> l).
Proof.
  revert d. induction l as [|x l IH]; intros d Hnd; simpl.
  - by rewrite app_nil_r.
  - assert (kf x ∉ d.*1) as Hx.
    { apply NoDup_app in Hnd as (_ & Hnd & _). intros ?.
      apply (Hnd (kf x)); [done|left]. }
    rewrite dict_set_fresh by done. rewrite IH.
    + by rewrite <-app_assoc.
    + rewrite fmap_app. simpl. by rewrite <-app_assoc.
Qed.

Lemma foldl_dict_set_NoDup {X} (kf : X → string) (vf : X → V)
    (l : list X) d :
  NoDup d.*1 →
  NoDup (foldl (fun acc x => dict_set (kf x) (vf x) acc) d l).*1.
Proof.
  revert d. induction l as [|x l IH]; intros d Hd; simpl; [done|].
  by apply IH, dict_set_NoDup.
Qed.

Lemma foldl_dict_set_elem_of {X} (kf : X → string) (vf : X → V)
    (l : list X) d y :
  y ∈ foldl (fun acc x => dict_set (kf x) (vf x) acc) d l →
  y ∈ d ∨ ∃ x, x ∈ l ∧ y = (kf x, vf x).
Proof.
  revert d. induction l as [|x l IH]; intros d; simpl; [auto|].
  intros [[->|?]%dict_set_elem_of|(x' & ? & ->)]%IH; [right|by left|right].
  - exists x. split; [left|done].
  - exists x'. split; [by right|done].
Qed.

Lemma foldl_dict_set_keys {X} (kf : X → string) (vf : X → V)
    (l : list X) d k :
  k ∈ (foldl (fun acc x => dict_set (kf x) (vf x) acc) d l).*1 ↔
  k ∈ d.*1 ∨ k ∈ kf <$> l.
Proof.
  revert d. induction l as [|x l IH]; intros d; simpl.
  - rewrite elem_of_nil. naive_solver.
  - rewrite IH, dict_set_keys, elem_of_cons.
    case_decide; [naive_solver|]. rewrite elem_of_app, list_elem_of_singleton.
    naive_solver.
Qed.
End dict.

(** ** The data directory *)

Lemma append_eq_self p s : p +:+ s = p → s = "".
Proof.
  induction p as [|c p IH]; simpl; [done|].
  intros [= H]. auto.
Qed.

Lemma tmp_path_ne path : tmp_path path ≠ path.
Proof. by intros ?%append_eq_self. Qed.

Lemma has_slash_tmp p : has_slash (tmp_path p) = has_slash p.
Proof.
  unfold tmp_path. induction p as [|c p IH]; simpl; [done|].
  by rewrite IH.
Qed.

Lemma upto_last_slash_tmp p : upto_last_slash (tmp_path p) = upto_last_slash p.
Proof.
  unfold tmp_path. induction p as [|c p IH]; [done|].
  change (String c p +:+ ".tmp") with (String c (p +:+ ".tmp")).
  cbn [upto_last_slash]. rewrite IH.
  change (String c (p +:+ ".tmp")) with (tmp_path (String c p)).
  by rewrite has_slash_tmp.
Qed.

(** The temporary file lies in the directory of its target. *)
Lemma dirname_tmp_path p : dirname (tmp_path p) = dirname p.
Proof. unfold dirname. by rewrite upto_last_slash_tmp. Qed.

Lemma lookup_write_json path data fs p :
  write_json path data fs !! p =
    if decide (p = path) then Some (Text data)
    else if decide (p = tmp_path path) then None
    else fs !! p.
Proof.
  unfold write_json, write_json_ops, fs_run. simpl.
  rewrite lookup_insert_eq.
  pose proof (tmp_path_ne path).
  repeat case_decide; subst; simplify_map_eq; done.
Qed.

Lemma lookup_write_json_upto k path data fs :
  (k < 3)%nat → write_json_upto k path data fs !! path = fs !! path.
Proof.
  intros Hk. pose proof (tmp_path_ne path).
  unfold write_json_upto, write_json_ops, fs_run.
  destruct k as [|[|[|k]]]; [| | |lia]; simpl; by simplify_map_eq.
Qed.

(** Writing the same document again changes nothing. *)
Lemma write_json_write_json path data data' fs :
  write_json path data (write_json path data' fs) = write_json path data fs.
Proof.
  apply map_eq. intros p. rewrite !lookup_write_json.
  by repeat case_decide.
Qed.

Lemma read_json_present path default fs :
  is_Some (fs !! path) → (read_json path default fs).2 = fs.
Proof. unfold read_json. intros [[doc|] ->]; done. Qed.

Lemma read_json_write_json path default data fs :
  read_json path default (write_json path data fs)
  = (data, write_json path data fs).
Proof.
  unfold read_json. rewrite lookup_write_json. by rewrite decide_True.
Qed.

Lemma paths_distinct :
  QUEUES_PATH ≠ LIVE_STATS_PATH ∧ QUEUES_PATH ≠ tmp_path LIVE_STATS_PATH
  ∧ LIVE_STATS_PATH ≠ tmp_path QUEUES_PATH.
Proof. by vm_compute. Qed.

(** C2.  [write_json] writes the document to [path ++ ".tmp"], a file of the
    directory of [path], and then replaces [path] by it in one [os.replace].
    Stopped after zero, one or two of its three file system calls, that is
    anywhere before the rename, it leaves [path] as it was, and a read then
    returns what it returned before the write began.  Run to its end, it
    leaves the document at [path]. *)
Theorem write_json_atomic (k : nat) (path : string) (data default : json)
    (fs : disk) :
  (k < 3)%nat →
  write_json_ops path data
    = [OpenW (tmp_path path); Dump (tmp_path path) data;
       Replace (tmp_path path) path]
  ∧ tmp_path path ≠ path
  ∧ dirname (tmp_path path) = dirname path
  ∧ write_json_upto k path data fs !! path = fs !! path
  ∧ (read_json path default (write_json_upto k path data fs)).1
    = (read_json path default fs).1
  ∧ write_json path data fs !! path = Some (Text data)
  ∧ (read_json path default (write_json path data fs)).1 = data.
Proof.
  intros Hk. split_and!.
  - done.
  - apply tmp_path_ne.
  - apply dirname_tmp_path.
  - by apply lookup_write_json_upto.
  - unfold read_json. rewrite lookup_write_json_upto by done.
    by destruct (fs !! path) as [[]|].
  - rewrite lookup_write_json. by rewrite decide_True.
  - by rewrite read_json_write_json.
Qed.

Lemma write_json_atomic_witness :
  let fs : disk := {[ LIVE_STATS_PATH := Text (JObj [("viewers", JInt 7)]) ]} in
  (2 < 3)%nat
  ∧ (read_json LIVE_STATS_PATH JNull
       (write_json_upto 2 LIVE_STATS_PATH (JObj [("viewers", JInt 8)]) fs)).1
    = JObj [("viewers", JInt 7)].
Proof.
  intros fs. split; [lia|].
  pose proof (write_json_atomic 2 LIVE_STATS_PATH (JObj [("viewers", JInt 8)])
                JNull fs ltac:(lia)) as (_ & _ & _ & _ & -> & _).
  reflexivity.
Defined.

(** ** Live stats *)

Lemma get_live_stats_absent fs :
  fs !! LIVE_STATS_PATH = None →
  get_live_stats fs = ([], write_json LIVE_STATS_PATH (JObj []) fs).
Proof. intros H. unfold get_live_stats, read_json. by rewrite H. Qed.

Lemma get_live_stats_write stats fs :
  get_live_stats (write_json LIVE_STATS_PATH (JObj stats) fs)
  = (stats, write_json LIVE_STATS_PATH (JObj stats) fs).
Proof. unfold get_live_stats. by rewrite read_json_write_json. Qed.

(** A merge is stored: reading after it returns what it returned. *)
Lemma get_live_stats_update partial fs :
  get_live_stats (update_live_stats partial fs).2 = update_live_stats partial fs.
Proof.
  unfold update_live_stats. destruct (get_live_stats fs) as [stats fs1].
  simpl. apply get_live_stats_write.
Qed.

Lemma update_live_stats_get k partial fs :
  dict_get k (update_live_stats partial fs).1 =
    match dict_get k (reverse partial) with
    | Some v => Some v
    | None => dict_get k (get_live_stats fs).1
    end.
Proof.
  unfold update_live_stats. destruct (get_live_stats fs) as [stats fs1].
  simpl. apply dict_get_update.
Qed.

Lemma seed_file_lookup_ne path default fs p :
  p ≠ path → p ≠ tmp_path path → seed_file path default fs !! p = fs !! p.
Proof.
  intros Hp Htmp. unfold seed_file, read_json, path_exists.
  case_bool_decide as Hex.
  - destruct Hex as [f Hf]. rewrite Hf. destruct f as [doc|]; simpl.
    + destruct (is_dict doc); [done|].
      rewrite lookup_write_json. by rewrite !decide_False.
    + destruct (is_dict default); [done|].
      rewrite lookup_write_json. by rewrite !decide_False.
  - rewrite lookup_write_json. by rewrite !decide_False.
Qed.

Lemma init_seed_files_absent env_username fs :
  fs !! LIVE_STATS_PATH = None →
  init_seed_files env_username fs !! LIVE_STATS_PATH
  = Some (Text (JObj (default_stats env_username))).
Proof.
  intros Habs. unfold init_seed_files.
  destruct paths_distinct as (Hq & Hqt & Hlt).
  set (fs1 := seed_file QUEUES_PATH (JObj []) fs).
  assert (fs1 !! LIVE_STATS_PATH = None) as Hfs1.
  { unfold fs1. rewrite seed_file_lookup_ne; [done|by apply not_eq_sym|done]. }
  unfold seed_file at 1, path_exists. rewrite Hfs1.
  rewrite bool_decide_eq_false_2 by (by intros [? [=]]).
  rewrite lookup_write_json. by rewrite decide_True.
Qed.

(** C5, as the code has it.  The documented defaults -- not connected, no
    viewers, no likes, no comment, no gift, no timestamp, and the channel
    name of the configuration (empty when none is configured) -- are what
    [init_seed_files] stores when it finds no snapshot file, as the store
    module is loaded.  A read then returns that document and leaves the
    data directory as it is. *)
Theorem init_seed_files_defaults (env_username : string) (fs : disk) :
  fs !! LIVE_STATS_PATH = None →
  let defaults :=
    [("connected", JBool false); ("viewers", JInt 0); ("likes", JInt 0);
     ("last_comment", JNull); ("last_gift", JNull); ("updated_at", JNull);
     ("tiktok_username", JStr env_username)] in
  let fs' := init_seed_files env_username fs in
  fs' !! LIVE_STATS_PATH = Some (Text (JObj defaults))
  ∧ get_live_stats fs' = (defaults, fs').
Proof.
  intros Habs defaults fs'.
  pose proof (init_seed_files_absent env_username fs Habs) as Hseed.
  fold fs' in Hseed. split; [exact Hseed|].
  unfold get_live_stats, read_json. by rewrite Hseed.
Qed.

Lemma init_seed_files_defaults_witness :
  (∅ : disk) !! LIVE_STATS_PATH = None
  ∧ dict_get "connected" (get_live_stats (init_seed_files "" ∅)).1
    = Some (JBool false)
  ∧ dict_get "tiktok_username" (get_live_stats (init_seed_files "" ∅)).1
    = Some (JStr "").
Proof.
  split; [reflexivity|].
  pose proof (init_seed_files_defaults "" ∅ eq_refl) as [_ H].
  cbv zeta in H. rewrite H. split; reflexivity.
Defined.

(** C5 as the specification words it fails: read through [get_live_stats]
    while no snapshot file exists, the snapshot is the empty document, and
    the empty document is what the read stores. *)
Lemma get_live_stats_absent_no_defaults :
  (get_live_stats (∅ : disk)).1 = []
  ∧ (get_live_stats (∅ : disk)).2 !! LIVE_STATS_PATH = Some (Text (JObj []))
  ∧ dict_get "connected" (get_live_stats (∅ : disk)).1 = None
  ∧ ¬ ((get_live_stats (∅ : disk)).1 = default_stats ""
       ∧ (get_live_stats (∅ : disk)).2 !! LIVE_STATS_PATH
         = Some (Text (JObj (default_stats "")))).
Proof.
  split_and!; [by vm_compute..|].
  intros [H _]. vm_compute in H. discriminate H.
Qed.

(** C6, as the code has it.  A merge overwrites the fields the partial
    update names and leaves every other field as it was.  A viewer-count
    merge as the listener issues it, [{viewers: 42, updated_at: now}],
    keeps [last_comment], sets [viewers] to 42 and [updated_at] to [now]. *)
Theorem update_live_stats_sparse (partial : list (string * json))
    (k now : string) (fs : disk) :
  dict_get k (get_live_stats (update_live_stats partial fs).2).1 =
    match dict_get k (reverse partial) with
    | Some v => Some v
    | None => dict_get k (get_live_stats fs).1
    end
  ∧ let fs' := (update_live_stats
                  [("viewers", JInt 42); ("updated_at", JStr now)] fs).2 in
    dict_get "last_comment" (get_live_stats fs').1
      = dict_get "last_comment" (get_live_stats fs).1
    ∧ dict_get "viewers" (get_live_stats fs').1 = Some (JInt 42)
    ∧ dict_get "updated_at" (get_live_stats fs').1 = Some (JStr now).
Proof.
  split; [|simpl; split_and!];
    rewrite get_live_stats_update, update_live_stats_get; reflexivity.
Qed.

(** C6 as the specification words it fails: after [merge({viewers: 42})]
    the snapshot still carries the timestamp it had. *)
Lemma update_live_stats_viewers_keeps_updated_at :
  let fs : disk :=
    {[ LIVE_STATS_PATH :=
         Text (JObj [("viewers", JInt 3);
                     ("last_comment",
                      JObj [("user", JStr "ann"); ("comment", JStr "hi")]);
                     ("updated_at", JStr "2024-01-01T00:00:00+00:00")]) ]} in
  let fs' := (update_live_stats [("viewers", JInt 42)] fs).2 in
  dict_get "viewers" (get_live_stats fs').1 = Some (JInt 42)
  ∧ dict_get "updated_at" (get_live_stats fs').1
    = dict_get "updated_at" (get_live_stats fs).1.
Proof. by vm_compute. Qed.

(** ** The listener *)

Lemma connected_of_disconnected now fs :
  connected_of (update_live_stats (disconnected now) fs).2 = Some (JBool false).
Proof.
  unfold connected_of. by rewrite get_live_stats_update, update_live_stats_get.
Qed.

Lemma on_event_carries_updated_at username now lc ev p lc' :
  on_event username now lc ev = (Some p, lc') →
  dict_get "updated_at" p = Some (JStr now).
Proof.
  destruct ev as [| |vc vs|tl lk ct|who cm|g rc ct who]; simpl;
    try (intros [= <- _]; reflexivity).
  destruct vc, vs; intros [= <- _]; reflexivity.
Qed.

Lemma deliver_carries_updated_at username lc evs fs :
  Forall carries_updated_at (deliver username lc evs fs).1.
Proof.
  revert lc fs. induction evs as [|[ev now] evs IH]; intros lc fs; simpl.
  { constructor. }
  destruct (on_event username now lc ev) as [[p|] lc'] eqn:Hev.
  - specialize (IH lc' (update_live_stats p fs).2).
    destruct (deliver username lc' evs _) as [tr fs']. simpl in *.
    constructor; [|done]. exists now.
    by eapply on_event_carries_updated_at.
  - apply IH.
Qed.

Lemma disconnected_carries_updated_at now :
  carries_updated_at (Merge (disconnected now)).
Proof. by exists now. Qed.

(** Every merge the reconnect loop issues names [updated_at]. *)
Lemma listener_merges_carry_updated_at username script fs :
  Forall carries_updated_at (reconnect_loop username script fs).1.1.
Proof.
  revert fs. induction script as [|r script IH]; intros fs; simpl.
  { constructor. }
  destruct (stop_is_set r); [constructor|].
  pose proof (deliver_carries_updated_at username None (delivered r) fs) as Hd.
  destruct (deliver username None (delivered r) fs) as [handled fs1].
  simpl in Hd.
  destruct (ends r) as [|now [| |]|]; simpl;
    try match goal with |- context [reconnect_loop username script ?fs0] =>
      specialize (IH fs0); destruct (reconnect_loop username script fs0)
        as [[tr fs'] e]; simpl in * end;
    rewrite ?Forall_cons, ?Forall_app, ?Forall_cons; split_and!;
    first [apply disconnected_carries_updated_at | done | by constructor].
Qed.

Lemma reconnect_loop_failed username now now' script fs :
  reconnect_loop username (failed now now' :: script) fs =
    let fs' := (update_live_stats (disconnected now')
                  (update_live_stats (disconnected now) fs).2).2 in
    let '(tr, fs'', e) := reconnect_loop username script fs' in
    (failed_trace now now' ++ tr, fs'', e).
Proof. reflexivity. Qed.

Lemma filter_disconnect_failed (times : list (string * string)) :
  length (filter (fun a => is_disconnect_merge a = true)
            (times ≫= fun t => failed_trace t.1 t.2))
  = (2 * length times)%nat.
Proof.
  induction times as [|[now now'] times IH]; [done|].
  rewrite bind_cons, filter_app, length_app, IH. simpl length. lia.
Qed.

(** The reconnect path of the loop, taken only when a backoff wait
    completes.  Sessions that fail before they deliver an event, each
    followed by such a wait, make the loop do this for each of them: start
    the client, merge [{connected: false}], wait 5, merge
    [{connected: false}] once more (the [finally] block), and only then
    connect again.  When the next session delivers its connect event,
    [{connected: true}] is merged. *)
Theorem reconnect_cycle (username : string) (times : list (string * string))
    (now nowf : string) (evs : list (event * string)) (e : ending)
    (rest : list round) (fs : disk) :
  let failures := (fun t => failed t.1 t.2) <$> times in
  let success :=
    {| stop_is_set := false; delivered := (ConnectEvent, now) :: evs;
       ends := e; now_finally := nowf |} in
  let before := times ≫= fun t => failed_trace t.1 t.2 in
  (∃ tr,
     (reconnect_loop username (failures ++ success :: rest) fs).1.1 =
       before
       ++ Start
          :: Merge [("connected", JBool true); ("updated_at", JStr now);
                    ("tiktok_username", JStr username)]
          :: tr)
  ∧ length (filter (fun a => is_disconnect_merge a = true) before)
    = (2 * length times)%nat.
Proof.
  intros failures success before. split; [|apply filter_disconnect_failed].
  subst failures before. revert fs.
  induction times as [|[t t'] times IH]; intros fs.
  - simpl.
    destruct (deliver username None evs _) as [handled fs1].
    destruct e as [|t [| |]|]; simpl; try by eexists.
    destruct (reconnect_loop username rest _) as [[tr fs'] e'].
    simpl. by eexists.
  - rewrite fmap_cons, bind_cons. simpl app at 1.
    rewrite reconnect_loop_failed. simpl.
    match goal with |- context [reconnect_loop username _ ?fs0] =>
      destruct (IH fs0) as [tr Htr];
      destruct (reconnect_loop username _ fs0) as [[tr0 fs'] e'] end.
    simpl in *. exists tr. by rewrite Htr.
Qed.

(** On that path three failed sessions give six merges of
    [{connected: false}] before the fourth connection attempt, and the
    second merge of each pair is followed by the next [client.start()]. *)
Lemma three_failures_six_merges :
  let script :=
    [failed "t1" "t2"; failed "t3" "t4"; failed "t5" "t6";
     {| stop_is_set := false; delivered := [(ConnectEvent, "t7")];
        ends := Interrupted; now_finally := "t8" |}] in
  let tr := (reconnect_loop "channel" script ∅).1.1 in
  tr = [Start; Merge (disconnected "t1"); Sleep 5; Merge (disconnected "t2");
        Start; Merge (disconnected "t3"); Sleep 5; Merge (disconnected "t4");
        Start; Merge (disconnected "t5"); Sleep 5; Merge (disconnected "t6");
        Start;
        Merge [("connected", JBool true); ("updated_at", JStr "t7");
               ("tiktok_username", JStr "channel")];
        Merge (disconnected "t8")]
  ∧ length (filter (fun a => is_disconnect_merge a = true) (take 12 tr))
    = 6%nat.
Proof. by vm_compute. Qed.

(** When the loop ends after it has done anything at all, the snapshot says
    [connected: false]: the last thing every path out of a turn does is the
    merge of the [finally] block. *)
Lemma reconnect_loop_leaves_disconnected username script fs :
  (reconnect_loop username script fs).2 = Running
  ∨ (reconnect_loop username script fs).1 = ([], fs)
  ∨ connected_of (reconnect_loop username script fs).1.2 = Some (JBool false).
Proof.
  revert fs. induction script as [|r script IH]; intros fs; simpl.
  { by left. }
  destruct (stop_is_set r); [by right; left|].
  destruct (deliver username None (delivered r) fs) as [handled fs1].
  destruct (ends r) as [|now [| |]|]; simpl;
    try (right; right; apply connected_of_disconnected).
  match goal with |- context [reconnect_loop username script ?fs0] =>
    destruct (IH fs0) as [H|[H|H]];
    destruct (reconnect_loop username script fs0) as [[tr fs'] e] end;
    simpl in *.
  - by left.
  - right; right. injection H as -> ->. apply connected_of_disconnected.
  - by right; right.
Qed.

(** Cancellation while a session streams, cancellation during the backoff
    wait, and a stop observed after a failed session all leave
    [connected: false]. *)
Lemma cancelled_after_start_disconnected username r script fs :
  stop_is_set r = false →
  (reconnect_loop username (r :: script) fs).2 ≠ Running →
  connected_of (reconnect_loop username (r :: script) fs).1.2
  = Some (JBool false).
Proof.
  intros Hstop Hrun.
  destruct (reconnect_loop_leaves_disconnected username (r :: script) fs)
    as [H|[H|H]]; [done| |done].
  exfalso. revert H. simpl. rewrite Hstop.
  destruct (deliver username None (delivered r) fs) as [handled fs1].
  destruct (ends r) as [|now [| |]|]; simpl; try discriminate.
  destruct (reconnect_loop username script _) as [[tr fs'] e]. discriminate.
Qed.

(** C4 at the input on which the code departs from it: [stop_event] is
    already set when the loop is entered, and the snapshot, left by an
    earlier run, says [connected: true].  The coroutine returns without a
    merge and the snapshot still says [connected: true]. *)
Lemma stop_at_entry_leaves_connected :
  let fs : disk :=
    {[ LIVE_STATS_PATH :=
         Text (JObj [("connected", JBool true); ("viewers", JInt 12);
                     ("updated_at", JStr "2024-01-01T00:00:00+00:00");
                     ("tiktok_username", JStr "channel")]) ]} in
  run_tiktok_listener "channel" true "2024-01-02T00:00:00+00:00"
    [stop_round] fs = ([], fs, Return)
  ∧ connected_of fs = Some (JBool true).
Proof. by vm_compute. Qed.

(** ** The timestamp of a merge *)

Lemma run_tiktok_listener_carries_updated_at username installed now0 script fs :
  Forall carries_updated_at
    (run_tiktok_listener username installed now0 script fs).1.1.
Proof.
  unfold run_tiktok_listener.
  destruct (decide (username = "")); [|destruct installed]; simpl.
  - constructor; [by exists now0|constructor].
  - apply listener_merges_carry_updated_at.
  - constructor; [by exists now0|constructor].
Qed.

(** C1, as the code has it.  [update_live_stats] reads no clock: the stored
    [updated_at] is the one the partial update carries, and is left as it
    was when the partial update carries none.  It is the callers that read
    the clock: every merge the listener issues carries an [updated_at]. *)
Theorem update_live_stats_updated_at (partial : list (string * json))
    (fs : disk) (username now0 : string) (installed : bool)
    (script : list round) (fs0 : disk) :
  dict_get "updated_at" (get_live_stats (update_live_stats partial fs).2).1 =
    match dict_get "updated_at" (reverse partial) with
    | Some t => Some t
    | None => dict_get "updated_at" (get_live_stats fs).1
    end
  ∧ Forall carries_updated_at
      (run_tiktok_listener username installed now0 script fs0).1.1.
Proof.
  split; [|apply run_tiktok_listener_carries_updated_at].
  rewrite get_live_stats_update. apply update_live_stats_get.
Qed.

(** C1 as the specification words it fails: a merge that names only
    [likes] leaves the [updated_at] of a fresh snapshot at null. *)
Lemma update_live_stats_keeps_null_updated_at :
  let fs : disk := {[ LIVE_STATS_PATH := Text (JObj (default_stats "")) ]} in
  let fs' := (update_live_stats [("likes", JInt 1)] fs).2 in
  dict_get "likes" (get_live_stats fs').1 = Some (JInt 1)
  ∧ dict_get "updated_at" (get_live_stats fs').1 = Some JNull.
Proof. by vm_compute. Qed.

(** ** Sorted lists without duplicates *)

Lemma canonical_ext l1 l2 :
  canonical l1 → canonical l2 → (∀ x, x ∈ l1 ↔ x ∈ l2) → l1 = l2.
Proof.
  intros [Hs1 Hn1] [Hs2 Hn2] Hel.
  apply (Sorted_unique String.le); [done..|].
  by apply NoDup_Permutation.
Qed.

Lemma canonical_nil : canonical [].
Proof. split; constructor. Qed.

Lemma sorted_elem_of x l : x ∈ sorted l ↔ x ∈ l.
Proof. unfold sorted. by rewrite merge_sort_Permutation. Qed.

Lemma sorted_canonical l : NoDup l → canonical (sorted l).
Proof.
  intros Hl. split.
  - apply (Sorted_merge_sort String.le).
  - unfold sorted. by rewrite merge_sort_Permutation.
Qed.

Lemma unique_sorted_elem_of x users :
  x ∈ unique_sorted users ↔ x ∈ strip <$> users.
Proof.
  unfold unique_sorted. rewrite sorted_elem_of.
  rewrite (foldl_dict_set_keys strip (fun _ => ()) users []).
  rewrite elem_of_nil. naive_solver.
Qed.

Lemma unique_sorted_canonical users : canonical (unique_sorted users).
Proof.
  apply sorted_canonical.
  apply (foldl_dict_set_NoDup strip (fun _ => ())). constructor.
Qed.

Lemma unique_sorted_stripped users : Forall stripped (unique_sorted users).
Proof.
  apply Forall_forall. intros x (u & -> & _)%unique_sorted_elem_of%list_elem_of_fmap.
  apply stripped_strip.
Qed.

Lemma fmap_strip_stripped l : Forall stripped l → strip <$> l = l.
Proof.
  induction 1 as [|x l Hx _ IH]; [done|]. csimpl. by rewrite Hx, IH.
Qed.

(** The normalising pass leaves a canonical list of trimmed names as it
    is. *)
Lemma unique_sorted_id l :
  canonical l → Forall stripped l → unique_sorted l = l.
Proof.
  intros Hc Hs. apply canonical_ext; [apply unique_sorted_canonical|done|].
  intros x. by rewrite unique_sorted_elem_of, fmap_strip_stripped.
Qed.

Lemma StronglySorted_filter {A} (R : relation A) (P : A → Prop)
    `{∀ x, Decision (P x)} l :
  StronglySorted R l → StronglySorted R (filter P l).
Proof.
  induction 1 as [|x l Hl IH Hx]; [constructor|].
  rewrite filter_cons. case_decide; [|done].
  constructor; [done|]. apply Forall_forall.
  intros y [_ Hy]%list_elem_of_filter. by eapply Forall_forall in Hx.
Qed.

Lemma canonical_filter (P : string → Prop) `{∀ x, Decision (P x)} l :
  canonical l → canonical (filter P l).
Proof.
  intros [Hs Hn]. split; [|by apply NoDup_filter].
  apply StronglySorted_Sorted, StronglySorted_filter.
  by apply (Sorted_StronglySorted String.le).
Qed.

(** [sorted(users)] for the set built in [add_to_queue]. *)
Lemma sorted_set_canonical (s : gset string) : canonical (sorted (elements s)).
Proof. apply sorted_canonical, NoDup_elements. Qed.

Lemma sorted_set_elem_of x (s : gset string) : x ∈ sorted (elements s) ↔ x ∈ s.
Proof. by rewrite sorted_elem_of, elem_of_elements. Qed.

(** ** Waitlists *)

Lemma normal_nil : normal [].
Proof. split; constructor. Qed.

Lemma normal_table_ok t : normal t → table_ok t.
Proof. intros [_ H]. eapply Forall_impl; [done|]. by intros ? [??]. Qed.

Lemma normal_lookup t k users :
  normal t → dict_get k t = Some users → canonical users ∧ Forall stripped users.
Proof.
  intros [_ H] Hk%dict_get_Some_elem_of.
  by rewrite Forall_forall in H; apply H in Hk.
Qed.

Lemma normal_dict_set t k users :
  normal t → canonical users → Forall stripped users →
  normal (dict_set k users t).
Proof.
  intros [Hn Hf] ??. split; [by apply dict_set_NoDup|].
  by apply dict_set_Forall.
Qed.

Lemma keys_trimmed_dict_set t k users :
  keys_trimmed t → stripped k → keys_trimmed (dict_set k users t).
Proof. intros. by apply dict_set_Forall. Qed.

Lemma users_of_json_normal j :
  canonical (users_of_json j) ∧ Forall stripped (users_of_json j).
Proof.
  destruct j; simpl; try (split; [apply canonical_nil|constructor]).
  split; [apply unique_sorted_canonical|apply unique_sorted_stripped].
Qed.

(** Whatever the file holds, the table [get_queues] returns has each key
    once and a canonical list of trimmed names under each key. *)
Lemma get_queues_normal fs : normal (get_queues fs).1.
Proof.
  unfold get_queues.
  destruct (read_json QUEUES_PATH (JObj []) fs) as [data fs1].
  destruct data as [| | | | |items]; simpl; try apply normal_nil.
  split.
  - apply (foldl_dict_set_NoDup fst (fun gu => users_of_json gu.2)).
    constructor.
  - apply Forall_forall. intros y Hy.
    apply (foldl_dict_set_elem_of fst (fun gu => users_of_json gu.2)) in Hy
      as [[]%elem_of_nil|(x & _ & ->)].
    apply users_of_json_normal.
Qed.

Lemma get_queues_disk fs :
  (get_queues fs).2 = (read_json QUEUES_PATH (JObj []) fs).2.
Proof.
  unfold get_queues. destruct (read_json _ _ fs) as [data fs1].
  by destruct data.
Qed.

Lemma get_queues_present fs :
  is_Some (fs !! QUEUES_PATH) → (get_queues fs).2 = fs.
Proof. intros. rewrite get_queues_disk. by apply read_json_present. Qed.

Lemma fmap_normal_id (t : table) :
  Forall (fun gu => canonical gu.2 ∧ Forall stripped gu.2) t →
  (fun gu => (gu.1, unique_sorted gu.2)) <$> t = t.
Proof.
  induction 1 as [|[k us] t [Hc Hs] _ IH]; [done|]. csimpl.
  by rewrite unique_sorted_id, IH.
Qed.

(** Reading back a stored normal table returns it. *)
Lemma get_queues_write t fs :
  normal t →
  get_queues (write_json QUEUES_PATH (json_of_table t) fs)
  = (t, write_json QUEUES_PATH (json_of_table t) fs).
Proof.
  intros [Hn Hf]. unfold get_queues, json_of_table.
  rewrite read_json_write_json. f_equal.
  rewrite foldl_fmap. simpl.
  rewrite (foldl_dict_set_fresh fst (fun gu => unique_sorted gu.2)) by done.
  simpl. by apply fmap_normal_id.
Qed.

(** The normalising pass of [save_queues]. *)
Lemma save_queues_unfold queues fs :
  save_queues queues fs =
    write_json QUEUES_PATH
      (json_of_table
         (foldl (fun n gu => dict_set (strip gu.1) (unique_sorted gu.2) n)
            [] queues)) fs.
Proof. reflexivity. Qed.

Lemma save_normalized_normal (queues : table) :
  normal (foldl (fun n gu => dict_set (strip gu.1) (unique_sorted gu.2) n)
            [] queues).
Proof.
  split.
  - apply (foldl_dict_set_NoDup (fun gu => strip gu.1)
             (fun gu => unique_sorted gu.2)). constructor.
  - apply Forall_forall. intros y Hy.
    apply (foldl_dict_set_elem_of (fun gu => strip gu.1)
             (fun gu => unique_sorted gu.2)) in Hy
      as [[]%elem_of_nil|(x & _ & ->)].
    split; [apply unique_sorted_canonical|apply unique_sorted_stripped].
Qed.

(** On a normal table with trimmed keys the pass changes nothing. *)
Lemma save_normalized_id (queues : table) :
  normal queues → keys_trimmed queues →
  foldl (fun n gu => dict_set (strip gu.1) (unique_sorted gu.2) n) [] queues
  = queues.
Proof.
  intros [Hn Hf] Hk.
  assert ((fun gu : string * list string => strip gu.1) <$> queues = queues.*1)
    as Hkeys.
  { clear Hn Hf. induction Hk as [|[k us] t Hk _ IH]; [done|]. csimpl.
    by rewrite Hk, IH. }
  rewrite (foldl_dict_set_fresh (fun gu => strip gu.1)
             (fun gu => unique_sorted gu.2)) by (by rewrite Hkeys).
  simpl. clear Hn Hkeys.
  induction Hf as [|[k us] t [Hc Hs] _ IH]; [done|].
  apply Forall_cons in Hk as [Hk1 Hk]. csimpl.
  rewrite unique_sorted_id by done. rewrite IH by done.
  by rewrite Hk1.
Qed.

Lemma save_queues_normal queues fs :
  normal queues → keys_trimmed queues →
  save_queues queues fs = write_json QUEUES_PATH (json_of_table queues) fs.
Proof. intros. by rewrite save_queues_unfold, save_normalized_id. Qed.

Lemma get_queues_absent fs :
  fs !! QUEUES_PATH = None →
  get_queues fs = ([], write_json QUEUES_PATH (JObj []) fs).
Proof. intros H. unfold get_queues, read_json. by rewrite H. Qed.

(** A second read returns the table of the first and touches nothing. *)
Lemma get_queues_again fs :
  get_queues (get_queues fs).2 = get_queues fs.
Proof.
  destruct (fs !! QUEUES_PATH) as [f|] eqn:Hf.
  - rewrite get_queues_present; [reflexivity|by eexists].
  - rewrite (get_queues_absent fs) by done. simpl.
    apply (get_queues_write [] fs normal_nil).
Qed.

Lemma add_to_queue_unfold game username fs :
  add_to_queue game username fs =
    save_queues
      (dict_set (lower (strip game))
         (sorted (elements
            ((list_to_set
                (default [] (dict_get (lower (strip game)) (get_queues fs).1))
              : gset string) ∪ {[strip username]})))
         (get_queues fs).1)
      (get_queues fs).2.
Proof. unfold add_to_queue. by destruct (get_queues fs). Qed.

Lemma added_users_normal (t : table) k name :
  normal t → stripped name →
  let users :=
    sorted (elements
      ((list_to_set (default [] (dict_get k t)) : gset string) ∪ {[name]})) in
  canonical users ∧ Forall stripped users.
Proof.
  intros Ht Hname users. split; [apply sorted_set_canonical|].
  apply Forall_forall. intros x.
  unfold users. rewrite sorted_set_elem_of, elem_of_union, elem_of_list_to_set.
  intros [Hx| ->%elem_of_singleton]; [|done].
  destruct (dict_get k t) as [old|] eqn:Hk; simpl in Hx.
  - destruct (normal_lookup t k old Ht Hk) as [_ Hs].
    by eapply Forall_forall in Hs.
  - by apply elem_of_nil in Hx.
Qed.

Lemma added_users_again (old : list string) name :
  sorted (elements
    ((list_to_set
        (sorted (elements ((list_to_set old : gset string) ∪ {[name]})))
      : gset string) ∪ {[name]}))
  = sorted (elements ((list_to_set old : gset string) ∪ {[name]})).
Proof.
  do 2 f_equal. apply set_eq. intros x.
  rewrite !elem_of_union, elem_of_list_to_set, sorted_set_elem_of.
  rewrite elem_of_union. naive_solver.
Qed.

(** C8.  [add_to_queue] is idempotent on every table the store produces:
    when the category keys of the stored table are trimmed, as
    [save_queues] writes them ([store_reachable_keys_trimmed]), adding an
    entrant twice leaves the data directory as adding it once does.  The
    entries of the stored table may be in any order, repeated or
    untrimmed, and the file may be absent, unparsable or no dictionary. *)
Theorem add_to_queue_idempotent (game username : string) (fs : disk) :
  keys_trimmed (get_queues fs).1 →
  add_to_queue game username (add_to_queue game username fs)
  = add_to_queue game username fs.
Proof.
  intros Hk.
  pose proof (get_queues_normal fs) as Hn.
  pose proof (added_users_normal (get_queues fs).1 (lower (strip game))
                (strip username) Hn (stripped_strip _)) as [Hc Hs].
  rewrite (add_to_queue_unfold game username fs).
  set (old := default [] (dict_get (lower (strip game)) (get_queues fs).1)) in *.
  set (users := sorted _) in *.
  set (t1 := dict_set (lower (strip game)) users (get_queues fs).1).
  assert (normal t1) as Hn1 by (by apply normal_dict_set).
  assert (keys_trimmed t1) as Hk1.
  { apply keys_trimmed_dict_set; [done|apply stripped_game_key]. }
  rewrite (save_queues_normal t1) by done.
  rewrite add_to_queue_unfold, get_queues_write by done.
  cbn [fst snd]. unfold t1 at 1 2.
  rewrite dict_get_set_eq.
  change (default [] (Some users)) with users.
  unfold users at 1. rewrite (added_users_again old (strip username)).
  fold users. rewrite dict_set_set. fold t1.
  rewrite save_queues_normal by done.
  apply write_json_write_json.
Qed.

Lemma add_to_queue_idempotent_witness :
  let fs : disk :=
    {[ QUEUES_PATH := Text (JObj [("valorant", JArr ["bob"; "Alice"; "bob"])]) ]} in
  keys_trimmed (get_queues fs).1
  ∧ add_to_queue "Valorant" " Alice " (add_to_queue "Valorant" " Alice " fs)
    = add_to_queue "Valorant" " Alice " fs.
Proof.
  intros fs.
  assert (keys_trimmed (get_queues fs).1) as Hk.
  { vm_compute. repeat constructor. }
  split; [exact Hk|]. exact (add_to_queue_idempotent "Valorant" " Alice " fs Hk).
Defined.

(** Outside the tables the store produces, on a file edited to hold two
    keys that trim to the same category, the first [add] stores the list of
    the later key and drops the entrant, the second [add] stores the
    entrant. *)
Lemma add_twice_differs_on_colliding_keys :
  let fs : disk :=
    {[ QUEUES_PATH := Text (JObj [("a", JArr []); (" a", JArr ["y"])]) ]} in
  add_to_queue "a" "x" fs !! QUEUES_PATH
    = Some (Text (JObj [("a", JArr ["y"])]))
  ∧ add_to_queue "a" "x" (add_to_queue "a" "x" fs) !! QUEUES_PATH
    = Some (Text (JObj [("a", JArr ["x"; "y"])]))
  ∧ add_to_queue "a" "x" (add_to_queue "a" "x" fs) ≠ add_to_queue "a" "x" fs.
Proof.
  intros fs. split_and!; [by vm_compute..|].
  intros H. apply (f_equal (fun d : disk => d !! QUEUES_PATH)) in H.
  vm_compute in H. discriminate H.
Qed.

Lemma remove_from_queue_unfold game username fs :
  remove_from_queue game username fs =
    match dict_get (lower (strip game)) (get_queues fs).1 with
    | None => (false, (get_queues fs).2)
    | Some users =>
        if bool_decide (strip username ∈ users) then
          (true,
           save_queues
             (dict_set (lower (strip game))
                (filter (fun u => u ≠ strip username) users) (get_queues fs).1)
             (get_queues fs).2)
        else (false, (get_queues fs).2)
    end.
Proof. unfold remove_from_queue. by destruct (get_queues fs). Qed.

Lemma filter_stripped (P : string → Prop) `{∀ x, Decision (P x)} l :
  Forall stripped l → Forall stripped (filter P l).
Proof.
  rewrite !Forall_forall. intros Hl x [_ Hx]%list_elem_of_filter. auto.
Qed.

(** C7.  When the table that is read has no category [game_key], or its
    category [game_key] does not list [username_key], [remove_from_queue]
    returns [False] and leaves the data directory as the read left it:
    untouched when the file exists, and the table that is read is the same
    afterwards.  When the category lists the entrant it returns [True]; on
    every table the store produces, whose keys are trimmed
    ([store_reachable_keys_trimmed]), the table stored and read afterwards
    is the old one with the entrant taken out of the category, and nothing
    else changed. *)
Theorem remove_from_queue_spec (game username : string) (fs : disk) :
  let queues := (get_queues fs).1 in
  let game_key := lower (strip game) in
  let username_key := strip username in
  let r := remove_from_queue game username fs in
  ((∀ users, dict_get game_key queues = Some users → username_key ∉ users) →
     r = (false, (get_queues fs).2)
     ∧ (get_queues r.2).1 = queues
     ∧ (is_Some (fs !! QUEUES_PATH) → r.2 = fs))
  ∧ (∀ users, dict_get game_key queues = Some users → username_key ∈ users →
     r.1 = true
     ∧ (keys_trimmed queues →
        (get_queues r.2).1
          = dict_set game_key (filter (fun u => u ≠ username_key) users) queues
        ∧ dict_get game_key (get_queues r.2).1
          = Some (filter (fun u => u ≠ username_key) users)
        ∧ (username_key ∉ filter (fun u => u ≠ username_key) users)
        ∧ (∀ k, k ≠ game_key →
            dict_get k (get_queues r.2).1 = dict_get k queues))).
Proof.
  intros queues game_key username_key r. subst r.
  rewrite remove_from_queue_unfold. fold queues game_key username_key.
  split.
  - intros Habs.
    assert (match dict_get game_key queues with
            | Some users =>
                if bool_decide (username_key ∈ users)
                then (true,
                      save_queues
                        (dict_set game_key
                           (filter (fun u => u ≠ username_key) users) queues)
                        (get_queues fs).2)
                else (false, (get_queues fs).2)
            | None => (false, (get_queues fs).2)
            end = (false, (get_queues fs).2)) as ->.
    { destruct (dict_get game_key queues) as [users|] eqn:Hk; [|done].
      by rewrite bool_decide_eq_false_2 by auto. }
    split_and!; [done| |].
    + simpl. by rewrite get_queues_again.
    + simpl. apply get_queues_present.
  - intros users Hk Hin. rewrite Hk, bool_decide_eq_true_2 by done.
    split; [done|]. intros Htrim. simpl.
    pose proof (get_queues_normal fs) as Hn. fold queues in Hn.
    destruct (normal_lookup queues game_key users Hn Hk) as [Hc Hs].
    set (users' := filter (fun u => u ≠ username_key) users).
    assert (normal (dict_set game_key users' queues)) as Hn'.
    { apply normal_dict_set; [done| |]; unfold users'.
      - by apply canonical_filter.
      - by apply filter_stripped. }
    rewrite save_queues_normal; [|done|].
    2:{ apply keys_trimmed_dict_set; [done|apply stripped_game_key]. }
    rewrite get_queues_write by done. simpl.
    split_and!; [done|apply dict_get_set_eq| |].
    + unfold users'. rewrite list_elem_of_filter. naive_solver.
    + intros k Hne. by apply dict_get_set_ne.
Qed.

Lemma remove_from_queue_spec_witness :
  let fs : disk :=
    {[ QUEUES_PATH := Text (JObj [("valorant", JArr ["Alice"; "bob"])]) ]} in
  (remove_from_queue "Valorant" "carol" fs = (false, (get_queues fs).2))
  ∧ (remove_from_queue " valorant" "bob " fs).1 = true
  ∧ (get_queues (remove_from_queue " valorant" "bob " fs).2).1
    = [("valorant", ["Alice"])].
Proof.
  intros fs.
  pose proof (remove_from_queue_spec "Valorant" "carol" fs) as [Habs _].
  pose proof (remove_from_queue_spec " valorant" "bob " fs) as [_ Hin].
  split.
  - apply Habs. intros users Hk. vm_compute in Hk.
    injection Hk as <-. rewrite !elem_of_cons, elem_of_nil.
    intros [H|[H|[]]]; discriminate H.
  - destruct (Hin ["Alice"; "bob"]) as [Htrue Hrest].
    + by vm_compute.
    + change (strip "bob ") with "bob". right; left.
    + split; [exact Htrue|].
      destruct Hrest as (-> & _).
      * vm_compute. repeat constructor.
      * by vm_compute.
Defined.

(** Outside the tables the store produces, on a file edited to hold two
    keys that trim to the same category, [remove_from_queue] returns [True]
    and the entrant is still listed. *)
Lemma remove_lost_on_colliding_keys :
  let fs : disk :=
    {[ QUEUES_PATH := Text (JObj [("a", JArr ["x"]); (" a", JArr ["x"])]) ]} in
  (remove_from_queue "a" "x" fs).1 = true
  ∧ (cmd_queue_users "a" (remove_from_queue "a" "x" fs).2).1 = ["x"].
Proof. by vm_compute. Qed.

(** What [add_to_queue] stores is normal, so the next read returns it. *)
Lemma get_queues_save queues fs :
  get_queues (save_queues queues fs) =
    (foldl (fun n gu => dict_set (strip gu.1) (unique_sorted gu.2) n) [] queues,
     save_queues queues fs).
Proof.
  rewrite save_queues_unfold. apply get_queues_write, save_normalized_normal.
Qed.

(** An entry of the stored table comes from an entry of the table that was
    saved, with its key trimmed. *)
Lemma save_normalized_lookup (queues : table) k users :
  dict_get k
    (foldl (fun n gu => dict_set (strip gu.1) (unique_sorted gu.2) n) [] queues)
  = Some users →
  ∃ k0 users0, (k0, users0) ∈ queues ∧ strip k0 = k
               ∧ users = unique_sorted users0.
Proof.
  intros Hk%dict_get_Some_elem_of.
  apply (foldl_dict_set_elem_of (fun gu => strip gu.1)
           (fun gu => unique_sorted gu.2)) in Hk
    as [[]%elem_of_nil|([k0 users0] & Hin & [= -> ->])].
  by exists k0, users0.
Qed.

(** C10, as the code has it.  Entrants are matched as written: when
    [username] and [username'] differ, trimmed, only by the case of their
    letters, and [username'] is not itself listed under a stored key of
    the category, then after [add_to_queue game username] the call
    [remove_from_queue game username'] returns [False] and leaves the data
    directory as it is.  (That the two names agree up to case plays no part
    in the proof: the code never folds the case of an entrant.) *)
Theorem remove_other_case (game username username' : string) (fs : disk) :
  lower (strip username) = lower (strip username') →
  strip username ≠ strip username' →
  (∀ k users, (k, users) ∈ (get_queues fs).1 →
     strip k = lower (strip game) → strip username' ∉ users) →
  remove_from_queue game username' (add_to_queue game username fs)
  = (false, add_to_queue game username fs).
Proof.
  intros _ Hne Hnew.
  pose proof (get_queues_normal fs) as Hn.
  rewrite remove_from_queue_unfold, add_to_queue_unfold, get_queues_save.
  cbn [fst snd].
  set (old := default [] (dict_get (lower (strip game)) (get_queues fs).1)).
  set (added := sorted _).
  destruct (dict_get _ (foldl _ _ _)) as [users|] eqn:Hk; [|done].
  rewrite bool_decide_eq_false_2; [done|].
  apply save_normalized_lookup in Hk as (k0 & users0 & Hin & Hk0 & ->).
  rewrite unique_sorted_elem_of.
  apply dict_set_elem_of in Hin as [[= -> ->]|Hin].
  - destruct (added_users_normal (get_queues fs).1 (lower (strip game))
                (strip username) Hn (stripped_strip _)) as [_ Hs].
    fold old added in Hs. rewrite fmap_strip_stripped by done.
    unfold added. rewrite sorted_set_elem_of, elem_of_union, elem_of_list_to_set.
    intros [Hold|Heq%elem_of_singleton]; [|by destruct Hne].
    unfold old in Hold.
    destruct (dict_get (lower (strip game)) (get_queues fs).1) as [o|] eqn:Ho;
      simpl in Hold; [|by apply elem_of_nil in Hold].
    apply dict_get_Some_elem_of in Ho.
    by apply (Hnew _ _ Ho (stripped_game_key game)).
  - destruct Hn as [_ Hf]. rewrite Forall_forall in Hf.
    destruct (Hf _ Hin) as [_ Hs]. simpl in Hs.
    rewrite fmap_strip_stripped by done. by apply (Hnew _ _ Hin).
Qed.

Lemma remove_other_case_witness :
  let fs : disk :=
    {[ QUEUES_PATH := Text (JObj [("valorant", JArr ["bob"])]) ]} in
  lower (strip " alice") = lower (strip "Alice ")
  ∧ strip " alice" ≠ strip "Alice "
  ∧ remove_from_queue "Valorant" "Alice " (add_to_queue "Valorant" " alice" fs)
    = (false, add_to_queue "Valorant" " alice" fs).
Proof.
  intros fs.
  assert (lower (strip " alice") = lower (strip "Alice ")) as H1
    by reflexivity.
  assert (strip " alice" ≠ strip "Alice ") as H2 by (by vm_compute).
  split; [exact H1|]. split; [exact H2|].
  apply (remove_other_case "Valorant" " alice" "Alice " fs H1 H2).
  intros k users Hin _. vm_compute in Hin.
  apply list_elem_of_singleton in Hin. injection Hin as -> ->.
  change (strip "Alice ") with "Alice".
  rewrite list_elem_of_singleton. discriminate.
Defined.

(** ** The waitlist invariant *)

Lemma stored_ok_write_table (t : table) fs :
  table_ok t → stored_ok (write_json QUEUES_PATH (json_of_table t) fs).
Proof.
  intros Ht items. rewrite lookup_write_json, decide_True by done.
  intros [= <-]. rewrite Forall_fmap.
  eapply Forall_impl; [exact Ht|]. intros [k us] Hc. by exists us.
Qed.

Lemma save_queues_stored_ok queues fs : stored_ok (save_queues queues fs).
Proof.
  rewrite save_queues_unfold.
  apply stored_ok_write_table, normal_table_ok, save_normalized_normal.
Qed.

Lemma get_queues_stored_ok fs : stored_ok fs → stored_ok (get_queues fs).2.
Proof.
  intros Hfs. destruct (fs !! QUEUES_PATH) as [f|] eqn:Hf.
  - rewrite get_queues_present by done. done.
  - rewrite get_queues_absent by done. simpl.
    apply (stored_ok_write_table [] fs). constructor.
Qed.

Lemma queue_step_stored_ok fs op : stored_ok fs → stored_ok (queue_step fs op).
Proof.
  intros Hfs. destruct op as [g u|g u|g|]; simpl.
  - rewrite add_to_queue_unfold. apply save_queues_stored_ok.
  - rewrite remove_from_queue_unfold.
    destruct (dict_get _ _) as [users|]; [case_bool_decide|]; simpl;
      auto using save_queues_stored_ok, get_queues_stored_ok.
  - unfold clear_queue. destruct (get_queues fs).
    apply save_queues_stored_ok.
  - by apply get_queues_stored_ok.
Qed.

Lemma queue_run_stored_ok ops fs : stored_ok fs → stored_ok (queue_run ops fs).
Proof.
  unfold queue_run. revert fs.
  induction ops as [|op ops IH]; intros fs Hfs; simpl; [done|].
  by apply IH, queue_step_stored_ok.
Qed.

(** C9.  After any run of waitlist operations, from any data directory,
    the table that is read maps every category to a list sorted by code
    points without a duplicate; so does the stored document, when it did
    before the run (an absent file, and every file the store has written,
    does); and a category that the table does not have is listed as the
    empty list. *)
Theorem waitlist_invariant (ops : list queue_op) (game : string) (fs : disk) :
  let fs' := queue_run ops fs in
  table_ok (get_queues fs').1
  ∧ (stored_ok fs → stored_ok fs')
  ∧ (dict_get (lower (strip game)) (get_queues fs').1 = None →
     (cmd_queue_users game fs').1 = []).
Proof.
  intros fs'. split_and!.
  - apply normal_table_ok, get_queues_normal.
  - apply queue_run_stored_ok.
  - intros Habs. unfold cmd_queue_users.
    destruct (get_queues fs') as [queues fs1]. simpl in *. by rewrite Habs.
Qed.

Lemma waitlist_invariant_witness :
  let ops := [Add "Valorant" " bob"; Add "valorant" "Alice";
              Remove "valorant" "carol"; Clear "chess"; List] in
  stored_ok (∅ : disk)
  ∧ stored_ok (queue_run ops ∅)
  ∧ (cmd_queue_users "tetris" (queue_run ops ∅)).1 = [].
Proof.
  intros ops.
  assert (stored_ok (∅ : disk)) as H0.
  { intros items Hitems. rewrite lookup_empty in Hitems. discriminate Hitems. }
  pose proof (waitlist_invariant ops "tetris" ∅) as (_ & Hstored & Habs).
  split; [exact H0|]. split; [exact (Hstored H0)|].
  apply Habs. reflexivity.
Defined.

Example waitlist_run_example :
  (get_queues
     (queue_run [Add "Valorant" " bob"; Add "valorant" "Alice";
                 Add "valorant" "bob"; Remove "valorant" "carol";
                 Clear "chess"; List] ∅)).1
  = [("valorant", ["Alice"; "bob"]); ("chess", [])].
Proof. by vm_compute. Qed.

(** * Further properties of the store *)

(** ** Reading and writing files *)

(** X1.  A second [read_json] returns what the first returned and leaves
    the data directory as the first left it: the seeding of an absent file
    happens once, and a file that does not parse is never repaired. *)
Theorem read_json_twice (path : string) (default : json) (fs : disk) :
  read_json path default (read_json path default fs).2
  = read_json path default fs.
Proof.
  unfold read_json at 2 3.
  destruct (fs !! path) as [[doc|]|] eqn:Hp; simpl.
  - unfold read_json. by rewrite Hp.
  - unfold read_json. by rewrite Hp.
  - apply read_json_write_json.
Qed.

Lemma lookup_write_json_upto_ne k path data fs p :
  p ≠ path → p ≠ tmp_path path →
  write_json_upto k path data fs !! p = fs !! p.
Proof.
  intros Hp Htmp. unfold write_json_upto.
  destruct k as [|[|[|k]]].
  - done.
  - simpl. unfold fs_run. simpl. by rewrite lookup_insert_ne.
  - simpl. unfold fs_run. simpl. by rewrite !lookup_insert_ne.
  - rewrite take_ge by (simpl; lia).
    change (fs_run (write_json_ops path data) fs) with (write_json path data fs).
    rewrite lookup_write_json. by rewrite !decide_False.
Qed.

(** X2.  [write_json] changes the target and nothing else: every other
    file of the data directory is as before, and the temporary file is gone
    when it returns. *)
Theorem write_json_frame (path p : string) (data : json) (fs : disk) :
  p ≠ path → p ≠ tmp_path path →
  write_json path data fs !! p = fs !! p
  ∧ write_json path data fs !! tmp_path path = None.
Proof.
  intros Hp Htmp. rewrite !lookup_write_json.
  rewrite (decide_False (P := p = path)) by done.
  rewrite (decide_False (P := p = tmp_path path)) by done.
  split; [done|].
  rewrite decide_False by apply tmp_path_ne. by rewrite decide_True.
Qed.

Lemma write_json_frame_witness :
  let fs : disk := {[ QUEUES_PATH := Text (JObj []) ]} in
  QUEUES_PATH ≠ LIVE_STATS_PATH ∧ QUEUES_PATH ≠ tmp_path LIVE_STATS_PATH
  ∧ write_json LIVE_STATS_PATH JNull fs !! QUEUES_PATH = Some (Text (JObj [])).
Proof.
  intros fs. destruct paths_distinct as (H1 & H2 & _).
  split; [exact H1|]. split; [exact H2|].
  destruct (write_json_frame LIVE_STATS_PATH QUEUES_PATH JNull fs H1 H2)
    as [-> _].
  reflexivity.
Defined.

(** X3.  A write that was interrupted anywhere leaves nothing that a later
    write does not clear: writing after an interrupted write gives the data
    directory that the write alone gives. *)
Theorem write_json_after_interrupted (k : nat) (path : string)
    (data data' : json) (fs : disk) :
  write_json path data (write_json_upto k path data' fs)
  = write_json path data fs.
Proof.
  apply map_eq. intros p. rewrite !lookup_write_json.
  repeat case_decide; try done.
  by apply lookup_write_json_upto_ne.
Qed.

(** ** Seeding *)

Lemma seed_file_kept path default fs f :
  fs !! path = Some f →
  match f with Text doc => is_dict doc = true | Unparsable => is_dict default = true end →
  seed_file path default fs = fs.
Proof.
  intros Hf Hdict. unfold seed_file, path_exists, read_json.
  rewrite Hf, bool_decide_eq_true_2 by done.
  destruct f as [doc|]; by rewrite Hdict.
Qed.

Lemma seed_file_result path default fs :
  is_dict default = true →
  ∃ f, seed_file path default fs !! path = Some f
       ∧ match f with
         | Text doc => is_dict doc = true
         | Unparsable => True
         end.
Proof.
  intros Hd. unfold seed_file, path_exists, read_json.
  destruct (fs !! path) as [[doc|]|] eqn:Hf.
  - rewrite bool_decide_eq_true_2 by done.
    destruct (is_dict doc) eqn:Hdoc.
    + exists (Text doc). by rewrite Hf.
    + exists (Text default). rewrite lookup_write_json. by rewrite decide_True.
  - rewrite bool_decide_eq_true_2 by done. rewrite Hd.
    exists Unparsable. by rewrite Hf.
  - rewrite bool_decide_eq_false_2 by (by intros [? [=]]).
    exists (Text default). rewrite lookup_write_json. by rewrite decide_True.
Qed.

Lemma seed_file_fixed path default fs :
  is_dict default = true →
  ∀ fs', fs' !! path = seed_file path default fs !! path →
    seed_file path default fs' = fs'.
Proof.
  intros Hd fs' Hsame.
  destruct (seed_file_result path default fs Hd) as (f & Hf & Hok).
  rewrite Hf in Hsame. apply (seed_file_kept path default fs' f Hsame).
  destruct f; [done|exact Hd].
Qed.

(** X4.  [init_seed_files] is idempotent: run again, at the next start of
    a process, it changes nothing. *)
Theorem init_seed_files_idempotent (env_username : string) (fs : disk) :
  init_seed_files env_username (init_seed_files env_username fs)
  = init_seed_files env_username fs.
Proof.
  destruct paths_distinct as (Hq & Hqt & Hlt).
  unfold init_seed_files.
  set (dq := JObj []). set (dl := JObj (default_stats env_username)).
  set (fs1 := seed_file QUEUES_PATH dq fs).
  set (fs2 := seed_file LIVE_STATS_PATH dl fs1).
  assert (seed_file QUEUES_PATH dq fs2 = fs2) as ->.
  { apply (seed_file_fixed QUEUES_PATH dq fs eq_refl).
    unfold fs2. by rewrite seed_file_lookup_ne. }
  by apply (seed_file_fixed LIVE_STATS_PATH dl fs1 eq_refl).
Qed.

(** X5.  [init_seed_files] never overwrites what it can use or cannot
    read: when both documents exist and each holds a dictionary or text
    that does not parse, the data directory is left as it is. *)
Theorem init_seed_files_keeps (env_username : string) (fs : disk)
    (fq fl : file) :
  fs !! QUEUES_PATH = Some fq → fs !! LIVE_STATS_PATH = Some fl →
  match fq with Text doc => is_dict doc = true | Unparsable => True end →
  match fl with Text doc => is_dict doc = true | Unparsable => True end →
  init_seed_files env_username fs = fs.
Proof.
  intros Hq Hl Hfq Hfl. unfold init_seed_files.
  rewrite (seed_file_kept QUEUES_PATH (JObj []) fs fq Hq)
    by (by destruct fq).
  apply (seed_file_kept LIVE_STATS_PATH _ fs fl Hl). by destruct fl.
Qed.

Lemma init_seed_files_keeps_witness :
  let fs : disk :=
    {[ QUEUES_PATH := Unparsable;
       LIVE_STATS_PATH := Text (JObj [("connected", JBool true)]) ]} in
  init_seed_files "channel" fs = fs.
Proof.
  intros fs.
  apply (init_seed_files_keeps "channel" fs Unparsable
           (Text (JObj [("connected", JBool true)]))); reflexivity.
Defined.

(** X6.  A document that parses but is not a dictionary is replaced by the
    default when the store is initialised. *)
Theorem init_seed_files_replaces_non_dict (env_username : string)
    (fs : disk) (doc : json) :
  fs !! LIVE_STATS_PATH = Some (Text doc) → is_dict doc = false →
  init_seed_files env_username fs !! LIVE_STATS_PATH
  = Some (Text (JObj (default_stats env_username))).
Proof.
  intros Hl Hdoc. destruct paths_distinct as (Hq & Hqt & Hlt).
  unfold init_seed_files.
  set (fs1 := seed_file QUEUES_PATH (JObj []) fs).
  assert (fs1 !! LIVE_STATS_PATH = Some (Text doc)) as Hfs1.
  { unfold fs1. rewrite seed_file_lookup_ne; [done|by apply not_eq_sym|done]. }
  unfold seed_file, path_exists, read_json.
  rewrite Hfs1, bool_decide_eq_true_2 by done. rewrite Hdoc.
  rewrite lookup_write_json. by rewrite decide_True.
Qed.

Lemma init_seed_files_replaces_non_dict_witness :
  let fs : disk := {[ LIVE_STATS_PATH := Text (JArr ["x"]) ]} in
  get_live_stats (init_seed_files "" fs)
  = (default_stats "", init_seed_files "" fs).
Proof.
  intros fs.
  pose proof (init_seed_files_replaces_non_dict "" fs (JArr ["x"])
                eq_refl eq_refl) as H.
  unfold get_live_stats, read_json. rewrite H. reflexivity.
Defined.

(** ** Waitlists: what the operations store *)

Lemma cmd_queue_users_fst game fs :
  (cmd_queue_users game fs).1
  = default [] (dict_get (lower (strip game)) (get_queues fs).1).
Proof. unfold cmd_queue_users. by destruct (get_queues fs). Qed.

Lemma save_normalized_keys_trimmed (queues : table) :
  keys_trimmed
    (foldl (fun n gu => dict_set (strip gu.1) (unique_sorted gu.2) n) [] queues).
Proof.
  apply Forall_forall. intros y Hy.
  apply (foldl_dict_set_elem_of (fun gu => strip gu.1)
           (fun gu => unique_sorted gu.2)) in Hy
    as [[]%elem_of_nil|(x & _ & ->)].
  apply stripped_strip.
Qed.

Lemma save_queues_keys_trimmed queues fs :
  keys_trimmed (get_queues (save_queues queues fs)).1.
Proof. rewrite get_queues_save. apply save_normalized_keys_trimmed. Qed.

Lemma clear_queue_unfold game fs :
  clear_queue game fs
  = save_queues (dict_set (lower (strip game)) [] (get_queues fs).1)
      (get_queues fs).2.
Proof. unfold clear_queue. by destruct (get_queues fs). Qed.

Lemma queue_step_keys_trimmed fs op :
  keys_trimmed (get_queues fs).1 →
  keys_trimmed (get_queues (queue_step fs op)).1.
Proof.
  intros Hk. destruct op as [g u|g u|g|]; simpl.
  - rewrite add_to_queue_unfold. apply save_queues_keys_trimmed.
  - rewrite remove_from_queue_unfold.
    destruct (dict_get _ _) as [users|]; [case_bool_decide|]; simpl;
      rewrite ?get_queues_again; auto using save_queues_keys_trimmed.
  - rewrite clear_queue_unfold. apply save_queues_keys_trimmed.
  - by rewrite get_queues_again.
Qed.

(** X7.  Trimmed category keys are an invariant of the waitlist
    operations: no run of them brings an untrimmed key into a table that
    had none, and a single [add_to_queue] leaves a table with trimmed keys
    whatever the file held before. *)
Theorem keys_trimmed_invariant (ops : list queue_op) (game username : string)
    (fs : disk) :
  (keys_trimmed (get_queues fs).1 →
   keys_trimmed (get_queues (queue_run ops fs)).1)
  ∧ keys_trimmed (get_queues (add_to_queue game username fs)).1.
Proof.
  split.
  - unfold queue_run. revert fs.
    induction ops as [|op ops IH]; intros fs Hk; simpl; [done|].
    by apply IH, queue_step_keys_trimmed.
  - rewrite add_to_queue_unfold. apply save_queues_keys_trimmed.
Qed.

Lemma keys_trimmed_invariant_witness :
  let ops := [Add " Chess " "ann"; Remove "chess" "bob"; Clear "go"; List] in
  keys_trimmed (get_queues (∅ : disk)).1
  ∧ keys_trimmed (get_queues (queue_run ops ∅)).1.
Proof.
  intros ops.
  assert (keys_trimmed (get_queues (∅ : disk)).1) as H0 by constructor.
  split; [exact H0|].
  exact (proj1 (keys_trimmed_invariant ops "" "" ∅) H0).
Defined.

Lemma get_queues_save_id (queues : table) (fs : disk) :
  normal queues → keys_trimmed queues →
  get_queues (save_queues queues fs) = (queues, save_queues queues fs).
Proof.
  intros Hn Hk. rewrite get_queues_save. by rewrite save_normalized_id.
Qed.

(** X8.  Round trip: a table with each key once, trimmed keys and
    canonical lists of trimmed names is read back as it was saved. *)
Theorem save_queues_get_queues (queues : table) (fs : disk) :
  normal queues → keys_trimmed queues →
  get_queues (save_queues queues fs) = (queues, save_queues queues fs).
Proof. apply get_queues_save_id. Qed.

Lemma save_queues_get_queues_witness :
  (get_queues (save_queues [("chess", ["ann"; "bob"]); ("go", [])] ∅)).1
  = [("chess", ["ann"; "bob"]); ("go", [])].
Proof.
  assert (∀ l : list string, bool_decide (Sorted String.le l ∧ NoDup l) = true →
            canonical l) as Hcan.
  { intros l Hl. by apply bool_decide_eq_true in Hl. }
  rewrite save_queues_get_queues; [reflexivity| |].
  - split.
    + apply (bool_decide_unpack (NoDup ["chess"; "go"])). by vm_compute.
    + repeat (apply Forall_cons_2;
                [split; [apply Hcan; by vm_compute|repeat constructor]|]).
      apply Forall_nil_2.
  - repeat constructor.
Defined.

Lemma add_to_queue_trimmed game username fs :
  keys_trimmed (get_queues fs).1 →
  let users :=
    sorted (elements
      ((list_to_set
          (default [] (dict_get (lower (strip game)) (get_queues fs).1))
        : gset string) ∪ {[strip username]})) in
  get_queues (add_to_queue game username fs)
  = (dict_set (lower (strip game)) users (get_queues fs).1,
     add_to_queue game username fs).
Proof.
  intros Hk users.
  pose proof (get_queues_normal fs) as Hn.
  destruct (added_users_normal (get_queues fs).1 (lower (strip game))
              (strip username) Hn (stripped_strip _)) as [Hc Hs].
  rewrite add_to_queue_unfold. fold users.
  apply get_queues_save_id.
  - by apply normal_dict_set.
  - apply keys_trimmed_dict_set; [done|apply stripped_game_key].
Qed.

(** X9.  What [add_to_queue] adds, on a table with trimmed keys: the
    category, under its trimmed lower-case key, lists afterwards what it
    listed before and the trimmed entrant; every other category lists what
    it listed before. *)
Theorem add_to_queue_listed (game username game' x : string) (fs : disk) :
  keys_trimmed (get_queues fs).1 →
  let fs' := add_to_queue game username fs in
  (x ∈ (cmd_queue_users game fs').1
     ↔ x ∈ (cmd_queue_users game fs).1 ∨ x = strip username)
  ∧ (lower (strip game') ≠ lower (strip game) →
     (cmd_queue_users game' fs').1 = (cmd_queue_users game' fs).1).
Proof.
  intros Hk fs'. unfold fs'. rewrite !cmd_queue_users_fst.
  rewrite (add_to_queue_trimmed game username fs Hk). cbn [fst].
  split.
  - rewrite dict_get_set_eq. cbn [default from_option id].
    rewrite sorted_set_elem_of, elem_of_union, elem_of_list_to_set.
    by rewrite elem_of_singleton.
  - intros Hne. by rewrite dict_get_set_ne.
Qed.

Lemma add_to_queue_listed_witness :
  let fs : disk :=
    {[ QUEUES_PATH := Text (JObj [("valorant", JArr ["bob"])]) ]} in
  "Alice" ∈ (cmd_queue_users "valorant" (add_to_queue "Valorant" " Alice " fs)).1.
Proof.
  intros fs.
  assert (keys_trimmed (get_queues fs).1) as Hk.
  { vm_compute. repeat constructor. }
  apply (proj1 (add_to_queue_listed "Valorant" " Alice " "valorant" "Alice"
                  fs Hk)).
  right. reflexivity.
Defined.

Lemma remove_from_queue_absent game username fs :
  (∀ users, dict_get (lower (strip game)) (get_queues fs).1 = Some users →
     strip username ∉ users) →
  remove_from_queue game username fs = (false, (get_queues fs).2).
Proof.
  intros Habs. rewrite remove_from_queue_unfold.
  destruct (dict_get _ _) as [users|] eqn:Hk; [|done].
  by rewrite bool_decide_eq_false_2 by auto.
Qed.

Lemma remove_from_queue_trimmed game username fs users :
  keys_trimmed (get_queues fs).1 →
  dict_get (lower (strip game)) (get_queues fs).1 = Some users →
  strip username ∈ users →
  (remove_from_queue game username fs).1 = true
  ∧ get_queues (remove_from_queue game username fs).2
    = (dict_set (lower (strip game))
         (filter (fun u => u ≠ strip username) users) (get_queues fs).1,
       (remove_from_queue game username fs).2).
Proof.
  intros Hk Hget Hin. rewrite remove_from_queue_unfold, Hget.
  rewrite bool_decide_eq_true_2 by done. split; [done|]. cbn [snd].
  pose proof (get_queues_normal fs) as Hn.
  destruct (normal_lookup _ _ _ Hn Hget) as [Hc Hs].
  apply get_queues_save_id.
  - apply normal_dict_set; [done|by apply canonical_filter|].
    by apply filter_stripped.
  - apply keys_trimmed_dict_set; [done|apply stripped_game_key].
Qed.

Lemma remove_after_add (game username x : string) (fs : disk) :
  keys_trimmed (get_queues fs).1 →
  let r := remove_from_queue game username (add_to_queue game username fs) in
  r.1 = true
  ∧ (x ∈ (cmd_queue_users game r.2).1
       ↔ x ∈ (cmd_queue_users game fs).1 ∧ x ≠ strip username).
Proof.
  intros Hk r.
  pose proof (add_to_queue_trimmed game username fs Hk) as Hadd.
  cbv zeta in Hadd.
  set (old := default [] (dict_get (lower (strip game)) (get_queues fs).1))
    in *.
  set (users := sorted _) in Hadd.
  set (fsA := add_to_queue game username fs) in *.
  assert (keys_trimmed (get_queues fsA).1) as HkA.
  { rewrite Hadd. apply keys_trimmed_dict_set; [done|apply stripped_game_key]. }
  assert (dict_get (lower (strip game)) (get_queues fsA).1 = Some users) as Hget.
  { rewrite Hadd. apply dict_get_set_eq. }
  assert (strip username ∈ users) as Hin.
  { unfold users. rewrite sorted_set_elem_of. set_solver. }
  destruct (remove_from_queue_trimmed game username fsA users HkA Hget Hin)
    as [Htrue Hread].
  fold r in Htrue, Hread. split; [done|].
  rewrite !cmd_queue_users_fst, Hread. cbn [fst].
  rewrite dict_get_set_eq. cbn [default from_option id]. fold old.
  rewrite list_elem_of_filter. unfold users.
  rewrite sorted_set_elem_of, elem_of_union, elem_of_list_to_set.
  rewrite elem_of_singleton. naive_solver.
Qed.

(** X10.  Adding an entrant and removing it again, on a table with
    trimmed keys: the removal returns [True], and the category then lists
    what it listed before the two calls, without the entrant. *)
Theorem add_then_remove (game username x : string) (fs : disk) :
  keys_trimmed (get_queues fs).1 →
  let r := remove_from_queue game username (add_to_queue game username fs) in
  r.1 = true
  ∧ (x ∈ (cmd_queue_users game r.2).1
       ↔ x ∈ (cmd_queue_users game fs).1 ∧ x ≠ strip username).
Proof. apply remove_after_add. Qed.

Lemma add_then_remove_witness :
  let fs : disk :=
    {[ QUEUES_PATH := Text (JObj [("valorant", JArr ["bob"])]) ]} in
  (remove_from_queue "Valorant" "Alice"
     (add_to_queue "valorant" " Alice" fs)).1 = true.
Proof.
  intros fs.
  assert (keys_trimmed (get_queues fs).1) as Hk.
  { vm_compute. repeat constructor. }
  exact (proj1 (add_then_remove "Valorant" "Alice" "" fs Hk)).
Defined.

(** X11.  On a table with trimmed keys a removal cannot succeed twice in a
    row: whatever the first [remove_from_queue] returned, repeating it
    returns [False] and changes nothing. *)
Theorem remove_twice (game username : string) (fs : disk) :
  keys_trimmed (get_queues fs).1 →
  remove_from_queue game username (remove_from_queue game username fs).2
  = (false, (remove_from_queue game username fs).2).
Proof.
  intros Hk.
  destruct (dict_get (lower (strip game)) (get_queues fs).1) as [users|]
    eqn:Hget;
    [destruct (decide (strip username ∈ users)) as [Hin|Hout]|].
  - destruct (remove_from_queue_trimmed game username fs users Hk Hget Hin)
      as [_ Hread].
    set (r := remove_from_queue game username fs) in *.
    rewrite remove_from_queue_absent; [by rewrite Hread|].
    rewrite Hread. cbn [fst]. rewrite dict_get_set_eq.
    intros ? [= <-]. rewrite list_elem_of_filter. naive_solver.
  - assert (remove_from_queue game username fs = (false, (get_queues fs).2))
      as ->.
    { apply remove_from_queue_absent. intros ? ?. by simplify_eq. }
    cbn [snd]. rewrite remove_from_queue_absent; rewrite get_queues_again.
    + done.
    + intros ? ?. by simplify_eq.
  - assert (remove_from_queue game username fs = (false, (get_queues fs).2))
      as ->.
    { apply remove_from_queue_absent. intros ? ?. by simplify_eq. }
    cbn [snd]. rewrite remove_from_queue_absent; rewrite get_queues_again.
    + done.
    + intros ? ?. by simplify_eq.
Qed.

Lemma remove_twice_witness :
  let fs : disk :=
    {[ QUEUES_PATH := Text (JObj [("valorant", JArr ["bob"])]) ]} in
  (remove_from_queue "valorant" "bob" fs).1 = true
  ∧ (remove_from_queue "valorant" "bob"
       (remove_from_queue "valorant" "bob" fs).2).1 = false.
Proof.
  intros fs. split; [reflexivity|].
  rewrite remove_twice; [reflexivity|].
  vm_compute. repeat constructor.
Defined.

(** X12.  [clear_queue] on a table with trimmed keys: the category is
    listed as empty afterwards, whether or not it existed, every other
    category lists what it listed before, and no entrant can be removed
    from the cleared category. *)
Theorem clear_queue_spec (game game' username : string) (fs : disk) :
  keys_trimmed (get_queues fs).1 →
  let fs' := clear_queue game fs in
  (cmd_queue_users game fs').1 = []
  ∧ (lower (strip game') ≠ lower (strip game) →
     (cmd_queue_users game' fs').1 = (cmd_queue_users game' fs).1)
  ∧ remove_from_queue game username fs' = (false, fs').
Proof.
  intros Hk fs'.
  pose proof (get_queues_normal fs) as Hn.
  assert (get_queues fs'
          = (dict_set (lower (strip game)) [] (get_queues fs).1, fs'))
    as Hread.
  { unfold fs'. rewrite clear_queue_unfold. apply get_queues_save_id.
    - apply normal_dict_set; [done|apply canonical_nil|constructor].
    - apply keys_trimmed_dict_set; [done|apply stripped_game_key]. }
  rewrite !cmd_queue_users_fst, Hread. cbn [fst]. split_and!.
  - by rewrite dict_get_set_eq.
  - intros Hne. by rewrite dict_get_set_ne.
  - rewrite remove_from_queue_absent; [by rewrite Hread|].
    rewrite Hread. cbn [fst]. rewrite dict_get_set_eq.
    intros ? [= <-]. apply not_elem_of_nil.
Qed.

Lemma clear_queue_spec_witness :
  let fs : disk :=
    {[ QUEUES_PATH := Text (JObj [("valorant", JArr ["bob"; "ann"])]) ]} in
  (cmd_queue_users " Valorant" (clear_queue "VALORANT " fs)).1 = [].
Proof.
  intros fs.
  assert (keys_trimmed (get_queues fs).1) as Hk.
  { vm_compute. repeat constructor. }
  destruct (clear_queue_spec "VALORANT " " Valorant" "" fs Hk) as (H & _ & _).
  rewrite cmd_queue_users_fst in *. exact H.
Defined.

Lemma add_add_disk game u1 u2 fs :
  keys_trimmed (get_queues fs).1 →
  add_to_queue game u2 (add_to_queue game u1 fs)
  = write_json QUEUES_PATH
      (json_of_table
         (dict_set (lower (strip game))
            (sorted (elements
               ((list_to_set
                   (default []
                      (dict_get (lower (strip game)) (get_queues fs).1))
                 : gset string) ∪ {[strip u1]} ∪ {[strip u2]})))
            (get_queues fs).1))
      (get_queues fs).2.
Proof.
  intros Hk.
  pose proof (get_queues_normal fs) as Hn.
  pose proof (add_to_queue_trimmed game u1 fs Hk) as Hadd. cbv zeta in Hadd.
  set (old := default [] (dict_get (lower (strip game)) (get_queues fs).1))
    in *.
  set (v1 := sorted _) in Hadd.
  rewrite (add_to_queue_unfold game u2), Hadd. cbn [fst snd].
  rewrite dict_get_set_eq. change (default [] (Some v1)) with v1.
  rewrite dict_set_set.
  assert ((list_to_set v1 : gset string) ∪ {[strip u2]}
          = (list_to_set old : gset string) ∪ {[strip u1]} ∪ {[strip u2]})
    as ->.
  { apply set_eq. intros x. unfold v1.
    rewrite !elem_of_union, elem_of_list_to_set, sorted_set_elem_of.
    by rewrite elem_of_union. }
  set (v := sorted _).
  assert (canonical v ∧ Forall stripped v) as [Hc Hs].
  { split; [apply sorted_set_canonical|]. apply Forall_forall. intros x.
    unfold v. rewrite sorted_set_elem_of, !elem_of_union, elem_of_list_to_set.
    rewrite !elem_of_singleton.
    intros [[Hx| ->]| ->]; [|apply stripped_strip..].
    unfold old in Hx.
    destruct (dict_get (lower (strip game)) (get_queues fs).1) as [o|] eqn:Ho;
      simpl in Hx; [|by apply elem_of_nil in Hx].
    destruct (normal_lookup _ _ _ Hn Ho) as [_ Hso].
    by eapply Forall_forall in Hso. }
  rewrite save_queues_normal.
  - rewrite (add_to_queue_unfold game u1). fold old v1.
    rewrite save_queues_unfold. apply write_json_write_json.
  - by apply normal_dict_set.
  - apply keys_trimmed_dict_set; [done|apply stripped_game_key].
Qed.

(** X13.  On a table with trimmed keys the order in which two entrants
    join a category does not matter: both orders leave the same data
    directory. *)
Theorem add_to_queue_comm (game u1 u2 : string) (fs : disk) :
  keys_trimmed (get_queues fs).1 →
  add_to_queue game u2 (add_to_queue game u1 fs)
  = add_to_queue game u1 (add_to_queue game u2 fs).
Proof.
  intros Hk. rewrite !add_add_disk by done. do 5 f_equal.
  apply set_eq. intros x. rewrite !elem_of_union. naive_solver.
Qed.

Lemma add_to_queue_comm_witness :
  add_to_queue "chess" "bob" (add_to_queue "chess" "ann" ∅)
  = add_to_queue "chess" "ann" (add_to_queue "chess" "bob" ∅).
Proof. apply add_to_queue_comm. constructor. Defined.

(** X14.  When the waitlist document is missing, does not parse, or is not
    a dictionary, the table is read as empty and the file itself is left
    alone by the read; the first [add_to_queue] then replaces whatever the
    file held by a table with the one entrant. *)
Theorem add_to_queue_unusable_file (game username : string) (fs : disk) :
  match fs !! QUEUES_PATH with
  | Some (Text doc) => is_dict doc = false
  | _ => True
  end →
  (get_queues fs).1 = []
  ∧ (is_Some (fs !! QUEUES_PATH) → (get_queues fs).2 = fs)
  ∧ add_to_queue game username fs !! QUEUES_PATH
    = Some (Text (JObj [(lower (strip game), JArr [strip username])])).
Proof.
  intros Hfile.
  assert ((get_queues fs).1 = []) as Hempty.
  { unfold get_queues, read_json.
    destruct (fs !! QUEUES_PATH) as [[doc|]|]; [|done..].
    by destruct doc. }
  split; [done|]. split; [apply get_queues_present|].
  rewrite add_to_queue_unfold, Hempty. cbn [dict_get default from_option].
  rewrite save_queues_unfold, lookup_write_json, decide_True by done.
  assert ((list_to_set [] : gset string) ∪ {[strip username]}
          = {[strip username]}) as -> by set_solver.
  rewrite elements_singleton. cbn.
  change (rstrip (lstrip (lower (strip game))))
    with (strip (lower (strip game))).
  by rewrite strip_idemp, (stripped_game_key game).
Qed.

Lemma add_to_queue_unusable_file_witness :
  let fs : disk := {[ QUEUES_PATH := Unparsable ]} in
  (get_queues fs).1 = []
  ∧ (get_queues (add_to_queue "Chess" " ann " fs)).1 = [("chess", ["ann"])].
Proof.
  intros fs.
  destruct (add_to_queue_unusable_file "Chess" " ann " fs I) as (H1 & _ & H3).
  split; [exact H1|].
  unfold get_queues, read_json. rewrite H3. reflexivity.
Defined.

(** ** Live stats: how merges compose *)

Lemma update_live_stats_unfold partial fs :
  update_live_stats partial fs =
    (dict_update (get_live_stats fs).1 partial,
     write_json LIVE_STATS_PATH
       (JObj (dict_update (get_live_stats fs).1 partial)) (get_live_stats fs).2).
Proof. unfold update_live_stats. by destruct (get_live_stats fs). Qed.

(** X15.  Two merges in a row are one merge of the two partial updates
    put end to end: the same document is returned and the data directory
    is the same. *)
Theorem update_live_stats_twice (p1 p2 : list (string * json)) (fs : disk) :
  update_live_stats p2 (update_live_stats p1 fs).2
  = update_live_stats (p1 ++ p2) fs.
Proof.
  rewrite (update_live_stats_unfold p2), get_live_stats_update.
  rewrite !(update_live_stats_unfold _ fs). cbn [fst snd].
  unfold dict_update. rewrite foldl_app.
  by rewrite write_json_write_json.
Qed.

(** X16.  A merge returns the document it stores, and it never drops a
    field: a field the snapshot had before is still there afterwards. *)
Theorem update_live_stats_keeps_fields (partial : list (string * json))
    (k : string) (fs : disk) :
  is_Some (dict_get k (get_live_stats fs).1) →
  get_live_stats (update_live_stats partial fs).2
    = update_live_stats partial fs
  ∧ is_Some (dict_get k (get_live_stats (update_live_stats partial fs).2).1).
Proof.
  intros Hk. rewrite get_live_stats_update. split; [done|].
  rewrite update_live_stats_get. by destruct (dict_get k (reverse partial)).
Qed.

Lemma update_live_stats_keeps_fields_witness :
  let fs : disk := {[ LIVE_STATS_PATH := Text (JObj (default_stats "")) ]} in
  is_Some (dict_get "last_gift"
             (get_live_stats (update_live_stats [("likes", JInt 4)] fs).2).1).
Proof.
  intros fs.
  apply (update_live_stats_keeps_fields [("likes", JInt 4)] "last_gift" fs).
  by eexists.
Defined.

(** X17.  A snapshot file that is missing, does not parse or is not a
    dictionary counts as the empty document: the merge stores the partial
    update alone, over whatever the file held. *)
Theorem update_live_stats_unusable_file (partial : list (string * json))
    (fs : disk) :
  match fs !! LIVE_STATS_PATH with
  | Some (Text doc) => is_dict doc = false
  | _ => True
  end →
  (update_live_stats partial fs).2 !! LIVE_STATS_PATH
  = Some (Text (JObj (dict_update [] partial))).
Proof.
  intros Hfile. rewrite update_live_stats_unfold. cbn [snd].
  rewrite lookup_write_json, decide_True by done.
  assert ((get_live_stats fs).1 = []) as ->; [|done].
  unfold get_live_stats, read_json.
  destruct (fs !! LIVE_STATS_PATH) as [[doc|]|]; [|done..].
  by destruct doc.
Qed.

Lemma update_live_stats_unusable_file_witness :
  let fs : disk := {[ LIVE_STATS_PATH := Unparsable ]} in
  (update_live_stats [("viewers", JInt 5)] fs).2 !! LIVE_STATS_PATH
  = Some (Text (JObj [("viewers", JInt 5)])).
Proof.
  intros fs. exact (update_live_stats_unusable_file [("viewers", JInt 5)] fs I).
Defined.

(** ** The two documents do not interfere *)

Lemma get_queues_lookup_ne fs p :
  p ≠ QUEUES_PATH → p ≠ tmp_path QUEUES_PATH → (get_queues fs).2 !! p = fs !! p.
Proof.
  intros Hp Htmp. rewrite get_queues_disk. unfold read_json.
  destruct (fs !! QUEUES_PATH) as [[doc|]|]; [done..|].
  simpl. rewrite lookup_write_json. by rewrite !decide_False.
Qed.

Lemma save_queues_lookup_ne queues fs p :
  p ≠ QUEUES_PATH → p ≠ tmp_path QUEUES_PATH →
  save_queues queues fs !! p = fs !! p.
Proof.
  intros Hp Htmp. rewrite save_queues_unfold, lookup_write_json.
  by rewrite !decide_False.
Qed.

Lemma queue_step_lookup_ne fs op p :
  p ≠ QUEUES_PATH → p ≠ tmp_path QUEUES_PATH → queue_step fs op !! p = fs !! p.
Proof.
  intros Hp Htmp. destruct op as [g u|g u|g|]; simpl.
  - rewrite add_to_queue_unfold, save_queues_lookup_ne by done.
    by apply get_queues_lookup_ne.
  - rewrite remove_from_queue_unfold.
    destruct (dict_get _ _) as [users|]; [case_bool_decide|]; simpl;
      rewrite ?save_queues_lookup_ne by done; by apply get_queues_lookup_ne.
  - rewrite clear_queue_unfold, save_queues_lookup_ne by done.
    by apply get_queues_lookup_ne.
  - by apply get_queues_lookup_ne.
Qed.

Lemma get_live_stats_ext fs fs' :
  fs !! LIVE_STATS_PATH = fs' !! LIVE_STATS_PATH →
  (get_live_stats fs).1 = (get_live_stats fs').1.
Proof.
  intros H. unfold get_live_stats, read_json. rewrite H.
  by destruct (fs' !! LIVE_STATS_PATH) as [[[]|]|].
Qed.

Lemma get_queues_ext fs fs' :
  fs !! QUEUES_PATH = fs' !! QUEUES_PATH →
  (get_queues fs).1 = (get_queues fs').1.
Proof.
  intros H. unfold get_queues, read_json. rewrite H.
  by destruct (fs' !! QUEUES_PATH) as [[[]|]|].
Qed.

(** X18.  The waitlists and the snapshot do not interfere: no run of
    waitlist operations changes the snapshot file, and no merge changes the
    waitlist file, so each is read afterwards as it was read before. *)
Theorem documents_independent (ops : list queue_op)
    (partial : list (string * json)) (fs : disk) :
  queue_run ops fs !! LIVE_STATS_PATH = fs !! LIVE_STATS_PATH
  ∧ (get_live_stats (queue_run ops fs)).1 = (get_live_stats fs).1
  ∧ (update_live_stats partial fs).2 !! QUEUES_PATH = fs !! QUEUES_PATH
  ∧ (get_queues (update_live_stats partial fs).2).1 = (get_queues fs).1.
Proof.
  destruct paths_distinct as (Hq & Hqt & Hlt).
  assert (queue_run ops fs !! LIVE_STATS_PATH = fs !! LIVE_STATS_PATH) as Hrun.
  { unfold queue_run. revert fs.
    induction ops as [|op ops IH]; intros fs; simpl; [done|].
    rewrite IH. apply queue_step_lookup_ne; [by apply not_eq_sym|done]. }
  assert ((update_live_stats partial fs).2 !! QUEUES_PATH = fs !! QUEUES_PATH)
    as Hupd.
  { rewrite update_live_stats_unfold. cbn [snd].
    rewrite lookup_write_json, !decide_False by done.
    unfold get_live_stats, read_json.
    destruct (fs !! LIVE_STATS_PATH) as [[[]|]|]; try done.
    simpl. rewrite lookup_write_json. by rewrite !decide_False. }
  split_and!; [done|by apply get_live_stats_ext|done|by apply get_queues_ext].
Qed.

(** ** The listener: what the handlers and the loop leave *)

Lemma connected_of_update partial fs :
  dict_get "connected" (reverse partial) = None →
  connected_of (update_live_stats partial fs).2 = connected_of fs.
Proof.
  intros Hp. unfold connected_of.
  by rewrite get_live_stats_update, update_live_stats_get, Hp.
Qed.

Lemma on_event_keeps_connected username now lc ev p lc' :
  names_connected ev = false →
  on_event username now lc ev = (Some p, lc') →
  dict_get "connected" (reverse p) = None.
Proof.
  destruct ev as [| |vc vs|tl lk ct|who cm|g rc ct who]; simpl;
    try discriminate; intros _.
  - destruct vc, vs; intros [= <- _]; reflexivity.
  - intros [= <- _]; reflexivity.
  - intros [= <- _]; reflexivity.
  - intros [= <- _]; reflexivity.
Qed.

(** X19.  Viewer, like, comment and gift events never change the
    [connected] field: after any number of them the snapshot says about
    the connection what it said before. *)
Theorem deliver_keeps_connected (username : string) (lc : option Z)
    (evs : list (event * string)) (fs : disk) :
  Forall (fun e => names_connected e.1 = false) evs →
  connected_of (deliver username lc evs fs).2 = connected_of fs.
Proof.
  intros Hevs. revert lc fs.
  induction Hevs as [|[ev now] evs Hev _ IH]; intros lc fs; simpl; [done|].
  destruct (on_event username now lc ev) as [[p|] lc'] eqn:Hon.
  - specialize (IH lc' (update_live_stats p fs).2).
    destruct (deliver username lc' evs _) as [tr fs'] eqn:Hd. simpl in *.
    rewrite IH. eapply connected_of_update, on_event_keeps_connected; eauto.
  - apply IH.
Qed.

Lemma deliver_keeps_connected_witness :
  let fs : disk :=
    {[ LIVE_STATS_PATH := Text (JObj [("connected", JBool true)]) ]} in
  connected_of
    (deliver "channel" None
       [(ViewerCountUpdateEvent None (Some 9), "t1"); (like_by 2, "t2");
        (CommentEvent None (Some "hi"), "t3")] fs).2
  = Some (JBool true).
Proof.
  intros fs. rewrite deliver_keeps_connected; [reflexivity|].
  repeat constructor.
Defined.

Lemma likes_of_update n now fs :
  dict_get "likes"
    (get_live_stats
       (update_live_stats [("likes", JInt n); ("updated_at", JStr now)] fs).2).1
  = Some (JInt n).
Proof. by rewrite get_live_stats_update, update_live_stats_get. Qed.

Lemma deliver_likes username lc i now (rest : list (Z * string)) fs :
  dict_get "likes"
    (get_live_stats
       (deliver username lc
          ((fun it => (like_by it.1, it.2)) <$> ((i, now) :: rest)) fs).2).1
  = Some (JInt (default 0 lc + i + foldr Z.add 0 rest.*1)).
Proof.
  revert lc i now fs.
  induction rest as [|[j now'] rest IH]; intros lc i now fs.
  - simpl. rewrite likes_of_update. do 2 f_equal. lia.
  - rewrite fmap_cons.
    change (deliver username lc
              ((like_by (i, now).1, (i, now).2)
               :: ((fun it => (like_by it.1, it.2)) <$> (j, now') :: rest)) fs)
      with (let fs1 :=
              (update_live_stats
                 [("likes", JInt (default 0 lc + i)); ("updated_at", JStr now)]
                 fs).2 in
            let '(tr, fs') :=
              deliver username (Some (default 0 lc + i))
                ((fun it => (like_by it.1, it.2)) <$> (j, now') :: rest) fs1 in
            (Merge [("likes", JInt (default 0 lc + i));
                    ("updated_at", JStr now)] :: tr, fs')).
    cbv zeta.
    match goal with |- context [deliver username ?c ?l ?d] =>
      specialize (IH c j now' d); destruct (deliver username c l d) as [tr fs']
    end.
    simpl in *. rewrite IH. do 2 f_equal. symmetry. apply Z.add_assoc.
Qed.

(** X20.  Within one session the like counter starts from zero and adds
    up the increments of the like events: after a run of like events that
    carry increments and no total, the snapshot holds their sum. *)
Theorem session_likes_sum (username : string) (i : Z) (now : string)
    (rest : list (Z * string)) (fs : disk) :
  dict_get "likes"
    (get_live_stats
       (deliver username None
          ((fun it => (like_by it.1, it.2)) <$> ((i, now) :: rest)) fs).2).1
  = Some (JInt (i + foldr Z.add 0 rest.*1)).
Proof. by rewrite deliver_likes. Qed.

Lemma connected_of_early_exit now username fs :
  connected_of
    (update_live_stats
       [("connected", JBool false); ("updated_at", JStr now);
        ("tiktok_username", JStr username)] fs).2
  = Some (JBool false).
Proof.
  unfold connected_of. by rewrite get_live_stats_update, update_live_stats_get.
Qed.

(** X21.  However the listener comes to an end -- its two early exits, a
    session that closes, a failure whose backoff is cancelled or times out,
    a cancellation while streaming, a stop seen after a failed session --
    once it has done anything at all the snapshot says [connected: false]. *)
Theorem listener_exit_disconnected (username now0 : string) (installed : bool)
    (script : list round) (fs : disk) :
  let r := run_tiktok_listener username installed now0 script fs in
  r.2 ≠ Running → r.1.1 ≠ [] → connected_of r.1.2 = Some (JBool false).
Proof.
  unfold run_tiktok_listener.
  destruct (decide (username = "")) as [->|Hu]; [|destruct installed]; simpl.
  - intros _ _. apply connected_of_early_exit.
  - intros Hrun Htr.
    destruct (reconnect_loop_leaves_disconnected username script fs)
      as [H|[H|H]]; [done| |done].
    rewrite H in Htr. by destruct Htr.
  - intros _ _. apply connected_of_early_exit.
Qed.

Lemma listener_exit_disconnected_witness :
  let fs : disk :=
    {[ LIVE_STATS_PATH := Text (JObj [("connected", JBool true)]) ]} in
  let script :=
    [failed "t1" "t2";
     {| stop_is_set := false;
        delivered := [(ConnectEvent, "t3"); (like_by 3, "t4")];
        ends := Interrupted; now_finally := "t5" |}] in
  connected_of (run_tiktok_listener "channel" true "t0" script fs).1.2
  = Some (JBool false).
Proof.
  intros fs script.
  apply (listener_exit_disconnected "channel" "t0" true script fs).
  - by vm_compute.
  - by vm_compute.
Defined.

(** X22.  Without a configured channel, or without the client library,
    the listener does one merge and returns, whatever the script would
    offer: the snapshot then says [connected: false], names the configured
    channel, and keeps every field the merge does not name. *)
Theorem listener_early_exit (username now0 k : string) (installed : bool)
    (script : list round) (fs : disk) :
  username = "" ∨ installed = false →
  let r := run_tiktok_listener username installed now0 script fs in
  r.2 = Return
  ∧ length r.1.1 = 1%nat
  ∧ connected_of r.1.2 = Some (JBool false)
  ∧ dict_get "updated_at" (get_live_stats r.1.2).1 = Some (JStr now0)
  ∧ dict_get "tiktok_username" (get_live_stats r.1.2).1 = Some (JStr username)
  ∧ (k ∉ ["connected"; "updated_at"; "tiktok_username"] →
     dict_get k (get_live_stats r.1.2).1 = dict_get k (get_live_stats fs).1).
Proof.
  intros Hearly. unfold run_tiktok_listener.
  assert (∀ u,
    let fs' := (update_live_stats
                  [("connected", JBool false); ("updated_at", JStr now0);
                   ("tiktok_username", JStr u)] fs).2 in
    connected_of fs' = Some (JBool false)
    ∧ dict_get "updated_at" (get_live_stats fs').1 = Some (JStr now0)
    ∧ dict_get "tiktok_username" (get_live_stats fs').1 = Some (JStr u)
    ∧ (k ∉ ["connected"; "updated_at"; "tiktok_username"] →
       dict_get k (get_live_stats fs').1 = dict_get k (get_live_stats fs).1))
    as Hmerge.
  { intros u fs'. unfold fs', connected_of.
    rewrite get_live_stats_update, !update_live_stats_get.
    split_and!; [done..|].
    rewrite !not_elem_of_cons. intros (H1 & H2 & H3 & _).
    cbn. by rewrite !decide_False by done. }
  destruct (decide (username = "")) as [->|Hu].
  - simpl. split_and!; [done|done|apply (Hmerge "")..].
  - destruct Hearly as [?| ->]; [done|]. simpl.
    split_and!; [done|done|apply (Hmerge username)..].
Qed.

Lemma listener_early_exit_witness :
  let fs : disk :=
    {[ LIVE_STATS_PATH :=
         Text (JObj [("connected", JBool true); ("likes", JInt 8)]) ]} in
  let r := run_tiktok_listener "" true "t0" [failed "t1" "t2"] fs in
  connected_of r.1.2 = Some (JBool false)
  ∧ dict_get "likes" (get_live_stats r.1.2).1 = Some (JInt 8).
Proof.
  intros fs r.
  destruct (listener_early_exit "" "t0" "likes" true [failed "t1" "t2"] fs
              (or_introl eq_refl)) as (_ & _ & Hc & _ & _ & Hk).
  split; [exact Hc|]. fold r in Hk. rewrite Hk; [reflexivity|].
  rewrite !not_elem_of_cons. split_and!; try discriminate.
  apply not_elem_of_nil.
Defined.

Lemma deliver_only_merges username lc evs fs :
  Forall (fun a => match a with Merge _ => True | _ => False end)
    (deliver username lc evs fs).1.
Proof.
  revert lc fs. induction evs as [|[ev now] evs IH]; intros lc fs; simpl.
  { constructor. }
  destruct (on_event username now lc ev) as [[p|] lc'].
  - specialize (IH lc' (update_live_stats p fs).2).
    destruct (deliver username lc' evs _) as [tr fs']. simpl in *.
    by constructor.
  - apply IH.
Qed.

Lemma count_merges_only (f : action → bool) (tr : list action) :
  Forall (fun a => match a with Merge _ => True | _ => False end) tr →
  (∀ p, f (Merge p) = false) →
  length (filter (fun a => f a = true) tr) = 0%nat.
Proof.
  intros Htr Hf. induction Htr as [|a tr Ha _ IH]; [done|].
  rewrite filter_cons. destruct a as [|p|n]; try done.
  rewrite decide_False by (by rewrite Hf). exact IH.
Qed.

Lemma count_cons (f : action → bool) a tr :
  length (filter (fun a => f a = true) (a :: tr))
  = ((if f a then 1 else 0) + length (filter (fun a => f a = true) tr))%nat.
Proof.
  rewrite filter_cons. destruct (f a) eqn:Hf.
  - by rewrite decide_True.
  - by rewrite decide_False.
Qed.

(** X23.  The loop never reconnects without backing off: in every trace
    the sessions started are at most one more than the waits begun, and
    every wait is one of 5 seconds. *)
Theorem reconnect_needs_backoff (username : string) (script : list round)
    (fs : disk) :
  let tr := (reconnect_loop username script fs).1.1 in
  (length (filter (fun a => is_start a = true) tr)
   ≤ length (filter (fun a => is_sleep a = true) tr) + 1)%nat
  ∧ Forall (fun a => ∀ n, a = Sleep n → n = 5) tr.
Proof.
  revert fs. induction script as [|r script IH]; intros fs; simpl.
  { split; [simpl; lia|constructor]. }
  destruct (stop_is_set r); [split; [simpl; lia|constructor]|].
  pose proof (deliver_only_merges username None (delivered r) fs) as Hd.
  destruct (deliver username None (delivered r) fs) as [handled fs1].
  simpl in Hd.
  pose proof (count_merges_only is_start handled Hd (fun _ => eq_refl)) as Hs.
  pose proof (count_merges_only is_sleep handled Hd (fun _ => eq_refl)) as Hw.
  assert (Forall (fun a => ∀ n, a = Sleep n → n = 5) handled) as H5.
  { eapply Forall_impl; [exact Hd|]. intros [|p|m] Hm n; try done. }
  destruct (ends r) as [|now [| |]|]; simpl;
    try match goal with |- context [reconnect_loop username script ?fs0] =>
      specialize (IH fs0); destruct (reconnect_loop username script fs0)
        as [[tr fs'] e]; simpl in IH; destruct IH as [IHc IH5] end;
    simpl; rewrite <-?app_assoc; simpl;
    rewrite !count_cons, !filter_app, !length_app, ?count_cons, Hs, Hw;
    simpl; (split; [lia|]);
    rewrite ?Forall_cons, ?Forall_app, ?Forall_cons; split_and!;
    try done; try (by intros ? [=]); try (by intros ? [= <-]);
    try apply Forall_nil_2.
Qed.

(** ** The chat commands *)

(** X24.  [!me] followed by [!leave] with the same arguments, on a table
    with trimmed keys: the first replies that the entrant was added, the
    second that it was removed, and the category then lists what it
    listed before, without the entrant. *)
Theorem cmd_me_then_cmd_leave (username game x : string) (fs : disk) :
  username ≠ "" → game ≠ "" → keys_trimmed (get_queues fs).1 →
  let r1 := cmd_me (Some username) (Some game) fs in
  let r2 := cmd_leave (Some username) (Some game) r1.2 in
  r1.1 = "Added " +:+ username +:+ " to " +:+ game +:+ " queue."
  ∧ r2.1 = "Removed " +:+ username +:+ " from " +:+ game +:+ " queue."
  ∧ (x ∈ (cmd_queue_users game r2.2).1
       ↔ x ∈ (cmd_queue_users game fs).1 ∧ x ≠ strip username).
Proof.
  intros Hu Hg Hk. unfold cmd_me, cmd_leave, missing.
  rewrite !bool_decide_eq_false_2 by done. cbn [orb default from_option id fst snd].
  destruct (remove_after_add game username x fs Hk) as [Htrue Hlist].
  destruct (remove_from_queue game username (add_to_queue game username fs))
    as [ok fs'] eqn:Hr.
  simpl in Htrue, Hlist. subst ok. by split_and!.
Qed.

Lemma cmd_me_then_cmd_leave_witness :
  (cmd_leave (Some "ann") (Some "Chess")
     (cmd_me (Some "ann") (Some "Chess") ∅).2).1
  = "Removed ann from Chess queue.".
Proof.
  apply (cmd_me_then_cmd_leave "ann" "Chess" "" ∅); [done|done|constructor].
Defined.

Lemma reconnect_needs_backoff_witness :
  let tr :=
    (reconnect_loop "channel"
       [failed "t1" "t2"; failed "t3" "t4";
        {| stop_is_set := false; delivered := [(ConnectEvent, "t5")];
           ends := Returns; now_finally := "t6" |}] ∅).1.1 in
  (length (filter (fun a => is_start a = true) tr) ≤ 2 + 1)%nat.
Proof.
  intros tr.
  pose proof (proj1 (reconnect_needs_backoff "channel"
       [failed "t1" "t2"; failed "t3" "t4";
        {| stop_is_set := false; delivered := [(ConnectEvent, "t5")];
           ends := Returns; now_finally := "t6" |}] ∅)) as H.
  exact H.
Defined.

(** ** The tables the store produces *)

Lemma seed_file_queues_table fs :
  (get_queues (seed_file QUEUES_PATH (JObj []) fs)).1 = (get_queues fs).1.
Proof.
  unfold seed_file, path_exists.
  destruct (fs !! QUEUES_PATH) as [[doc|]|] eqn:Hq.
  - rewrite bool_decide_eq_true_2 by done.
    unfold read_json at 1. rewrite Hq.
    destruct (is_dict doc) eqn:Hdoc; [done|].
    unfold get_queues. rewrite read_json_write_json.
    unfold read_json. rewrite Hq. by destruct doc.
  - rewrite bool_decide_eq_true_2 by done.
    unfold read_json at 1. by rewrite Hq.
  - rewrite bool_decide_eq_false_2 by (by intros [? [=]]).
    rewrite (get_queues_absent fs Hq).
    pose proof (get_queues_write [] fs normal_nil) as Hw.
    change (json_of_table []) with (JObj []) in Hw. by rewrite Hw.
Qed.

Lemma init_seed_files_queues_table env_username fs :
  (get_queues (init_seed_files env_username fs)).1 = (get_queues fs).1.
Proof.
  destruct paths_distinct as (Hq & Hqt & Hlt).
  unfold init_seed_files. rewrite <-(seed_file_queues_table fs).
  apply get_queues_ext. by apply seed_file_lookup_ne.
Qed.

Lemma update_live_stats_queues_table partial fs :
  (get_queues (update_live_stats partial fs).2).1 = (get_queues fs).1.
Proof.
  destruct paths_distinct as (Hq & Hqt & Hlt).
  apply get_queues_ext. rewrite update_live_stats_unfold. cbn [snd].
  rewrite lookup_write_json, !decide_False by done.
  unfold get_live_stats, read_json.
  destruct (fs !! LIVE_STATS_PATH) as [[[]|]|]; try done.
  simpl. rewrite lookup_write_json. by rewrite !decide_False.
Qed.

(** Every table the store produces has trimmed category keys. *)
Lemma store_reachable_keys_trimmed fs :
  store_reachable fs → keys_trimmed (get_queues fs).1.
Proof.
  induction 1 as [fs Hq|u fs _ IH|fs op _ IH|p fs _ IH].
  - rewrite (get_queues_absent fs Hq). constructor.
  - by rewrite init_seed_files_queues_table.
  - by apply queue_step_keys_trimmed.
  - by rewrite update_live_stats_queues_table.
Qed.

Example store_reachable_example :
  store_reachable
    (queue_run [Add "Chess" "ann"; Remove "chess" "bob"; Clear "go"]
       (init_seed_files "channel" ∅)).
Proof.
  apply (reach_queue _ (Clear "go")), (reach_queue _ (Remove "chess" "bob")),
    (reach_queue _ (Add "Chess" "ann")), reach_seed.
  by apply reach_no_file.
Qed.

(** ** The backoff wait *)

(** C3 at the input on which the code departs from it: a session fails,
    and the backoff wait, [asyncio.wait_for(asyncio.sleep(5), timeout=5)],
    ends in [TimeoutError], as it does when the timeout, armed first, fires
    before the sleep of the same length is over.  The handler at lines
    162-165 catches [asyncio.CancelledError] only: the loop merges
    [{connected: false}] in the [except] block, begins the wait, merges
    once more in the [finally] block and ends with the error.  Whatever
    would follow -- further failures, a successful connect -- is never
    reached: [client.start()] is awaited once and [{connected: true}] is
    not merged. *)
Theorem backoff_timeout_ends_listener (username now now' : string)
    (rest : list round) (fs : disk) :
  let timed_out :=
    {| stop_is_set := false; delivered := []; ends := Raises now TimedOut;
       now_finally := now' |} in
  let r := run_tiktok_listener username true "" (timed_out :: rest) fs in
  username ≠ "" →
  r.1.1 = [Start; Merge (disconnected now); Sleep 5; Merge (disconnected now')]
  ∧ r.2 = RaiseTimeout
  ∧ length (filter (fun a => is_start a = true) r.1.1) = 1%nat
  ∧ connected_of r.1.2 = Some (JBool false).
Proof.
  intros timed_out r Hu. unfold r, run_tiktok_listener.
  rewrite decide_False by done. simpl.
  split_and!; try done. apply connected_of_disconnected.
Qed.

Lemma backoff_timeout_ends_listener_witness :
  let script :=
    [{| stop_is_set := false; delivered := [];
        ends := Raises "t1" TimedOut; now_finally := "t2" |};
     failed "t3" "t4"; failed "t5" "t6";
     {| stop_is_set := false; delivered := [(ConnectEvent, "t7")];
        ends := Returns; now_finally := "t8" |}] in
  "channel" ≠ ""
  ∧ (run_tiktok_listener "channel" true "" script ∅).1.1
    = [Start; Merge (disconnected "t1"); Sleep 5; Merge (disconnected "t2")]
  ∧ (run_tiktok_listener "channel" true "" script ∅).2 = RaiseTimeout.
Proof.
  intros script.
  assert ("channel" ≠ "") as Hu by discriminate.
  split; [exact Hu|].
  destruct (backoff_timeout_ends_listener "channel" "t1" "t2"
              [failed "t3" "t4"; failed "t5" "t6";
               {| stop_is_set := false; delivered := [(ConnectEvent, "t7")];
                  ends := Returns; now_finally := "t8" |}] ∅ Hu)
    as (Htr & Hexit & _).
  split; [exact Htr|exact Hexit].
Defined.

(** ** Names that differ by case *)

(** C10 as the claim words it fails, on a table the store produces: with
    ["Alice"] already waiting, ["alice"] is added, and removing ["Alice"]
    returns [True] and takes ["Alice"] off the list. *)
Lemma remove_other_case_already_listed :
  let fs := add_to_queue "chess" "Alice" ∅ in
  let fs' := add_to_queue "chess" "alice" fs in
  lower (strip "alice") = lower (strip "Alice")
  ∧ strip "alice" ≠ strip "Alice"
  ∧ (get_queues fs').1 = [("chess", ["Alice"; "alice"])]
  ∧ (remove_from_queue "chess" "Alice" fs').1 = true
  ∧ (get_queues (remove_from_queue "chess" "Alice" fs').2).1
    = [("chess", ["alice"])].
Proof. split_and!; by vm_compute. Qed.
